(** * A shallow embedding of the memory-leak demo application

    The demo consists of two AngularJS source files:

    - [client/app/directives/root.directive.js]: the [rootTest] directive,
      whose link function subscribes a closure to ['someEvent'] on
      [$rootScope] and never releases the subscription;
    - [client/app/app.js]: the [HomeController] and the route table.

    JavaScript objects are modelled as finite maps from property names to
    values, objects shared between closures live in a store indexed by
    locations, and every closure of the source is a constructor carrying the
    variables it captures. *)

From Stdlib Require Import NArith List String Ascii Lia Bool.
From stdpp Require Import base option gmap strings list fin_maps fin_sets.

Local Open Scope string_scope.
Local Open Scope list_scope.

(** ** JavaScript values *)

Module JS.

(** The primitive values the two source files manipulate. *)
Inductive Value :=
| Undefined
| Null
| Boolean (b : bool)
| Str (s : string).

#[export] Instance Value_eq_dec : EqDecision Value.
Proof. solve_decision. Defined.

(** [ToString] on the primitives above. *)
Definition ToString (v : Value) : string :=
  match v with
  | Undefined => "undefined"
  | Null => "null"
  | Boolean true => "true"
  | Boolean false => "false"
  | Str s => s
  end.

(** [a === b] on primitives: same type and same value. *)
Definition strict_equals (a b : Value) : bool := bool_decide (a = b).

(** [a + b] when the left operand is a string: string concatenation of the
    right operand's [ToString]. *)
Definition concat (a : string) (b : Value) : string := a +:+ ToString b.

(** An array is a list of slots; a hole is [None]. *)
Definition Array := list (option Value).

(** [new Array(len)]: [len] holes, for a length below 2^32 as every length
    in the source is; a larger one makes the constructor throw a
    [RangeError] and has no array. *)
Definition new_Array (len : N) : Array := repeat None (N.to_nat len).

(** The text [join] uses for one slot: holes, [undefined] and [null] give the
    empty string. *)
Definition slot_text (e : option Value) : string :=
  match e with
  | None | Some Undefined | Some Null => ""
  | Some v => ToString v
  end.

(** [Array.prototype.join]. *)
Fixpoint Array_join (a : Array) (sep : string) : string :=
  match a with
  | [] => ""
  | e :: rest =>
      match rest with
      | [] => slot_text e
      | _ :: _ => slot_text e +:+ sep +:+ Array_join rest sep
      end
  end.

(** [sep] written [n] times. *)
Fixpoint String_repeat (s : string) (n : nat) : string :=
  match n with
  | O => ""
  | S n' => s +:+ String_repeat s n'
  end.

(** Every character of [s] is [c]. *)
Fixpoint all_chars (c : ascii) (s : string) : bool :=
  match s with
  | EmptyString => true
  | String d s' => bool_decide (d = c) && all_chars c s'
  end.

End JS.

(** ** The [rootTest] directive ([root.directive.js]) *)

Module RootDirective.
Import JS.

(** Objects that closures share are kept in a store; a location names one. *)
Abbreviation loc := positive.

(** The function [$rootScope.$on] returns: it remembers which entry of the
    listener table it releases. *)
Record Deregistration := mkDeregistration {
  dereg_event : string;
  dereg_index : nat }.

(** The closures of [root.directive.js], each with the variables it
    captures. *)
Inductive Closure :=
| someEvent_listener (scope element : loc)
    (** lines 8-15: [function () { element.tooltip({...}); scope.val = ... }] *)
| title_fn (scope : loc)
    (** lines 10-12: [function () { return "Rating is " + scope.title + scope.val; }] *)
| destroy_handler (cleanUp : Deregistration)
    (** lines 17-20, commented out in the source:
        [function () { console.log(1); cleanUp(); }].  Only the repaired
        variant [link_with_cleanup] below creates it. *).

(** A DOM element as the directive sees it: the option objects passed to
    [element.tooltip], and the handlers attached with [element.on]. *)
Record Element := mkElement {
  tooltip_titles : list Closure;
  on_handlers : list (string * Closure) }.

Definition new_element : Element := mkElement [] [].

Record World := mkWorld {
  scopes : gmap positive (gmap string Value);
    (** the scope objects, by location *)
  dom_elements : gmap positive Element;
  listeners : list (string * option Closure);
    (** [$rootScope.$$listeners], in registration order; a released entry is
        nulled, as the framework does *)
  children : gset positive;
    (** the child scopes of [$rootScope] that have not been destroyed *)
  released : list Deregistration;
    (** the deregistration functions that have been called, in call order *)
  next : positive
    (** the next unused location *) }.

Definition initial : World := mkWorld ∅ ∅ [] ∅ [] 1%positive.

(** *** A state monad over the world *)

Definition M (A : Type) : Type := World → A * World.

Definition ret {A} (a : A) : M A := λ w, (a, w).

Definition bind {A B} (m : M A) (k : A → M B) : M B :=
  λ w, let (a, w') := m w in k a w'.

Notation "x <~ m ;; k" := (bind m (λ x, k))
  (at level 90, m at next level, right associativity).
Notation "m ;;; k" := (bind m (λ _, k))
  (at level 90, right associativity).

Definition exec {A} (m : M A) (w : World) : World := snd (m w).

(** *** Property access on scope objects *)

Definition get_object (o : loc) (w : World) : gmap string Value :=
  default ∅ (scopes w !! o).

(** [o.p = v] *)
Definition set_prop (o : loc) (p : string) (v : Value) : M unit :=
  λ w, (tt, mkWorld (<[o := <[p := v]> (get_object o w)]> (scopes w))
                    (dom_elements w) (listeners w) (children w) (released w)
                    (next w)).

(** [o.p]; a missing property reads as [undefined]. *)
Definition get_prop (o : loc) (p : string) : M Value :=
  λ w, (default Undefined (get_object o w !! p), w).

(** *** The framework services the directive calls *)

(** [$rootScope.$on(name, listener)]: append to the table, hand back the
    deregistration function. *)
Definition rootScope_on (name : string) (listener : Closure) : M Deregistration :=
  λ w, (mkDeregistration name (length (listeners w)),
        mkWorld (scopes w) (dom_elements w)
                (listeners w ++ [(name, Some listener)])
                (children w) (released w) (next w)).

(** Calling a deregistration function nulls its entry. *)
Definition deregister (d : Deregistration) : M unit :=
  λ w, (tt, mkWorld (scopes w) (dom_elements w)
                    (<[dereg_index d := (dereg_event d, None)]> (listeners w))
                    (children w) (released w ++ [d]) (next w)).

Definition get_element (e : loc) (w : World) : Element :=
  default new_element (dom_elements w !! e).

(** [element.tooltip({ title: f })] *)
Definition element_tooltip (e : loc) (title : Closure) : M unit :=
  λ w, let el := get_element e w in
       (tt, mkWorld (scopes w)
                    (<[e := mkElement (tooltip_titles el ++ [title])
                                      (on_handlers el)]> (dom_elements w))
                    (listeners w) (children w) (released w) (next w)).

(** [element.on(name, handler)] *)
Definition element_on (e : loc) (name : string) (handler : Closure) : M unit :=
  λ w, let el := get_element e w in
       (tt, mkWorld (scopes w)
                    (<[e := mkElement (tooltip_titles el)
                                      (on_handlers el ++ [(name, handler)])]>
                       (dom_elements w))
                    (listeners w) (children w) (released w) (next w)).

(** *** The bodies of the closures *)

(** The [console.log(1)] of the commented-out handler writes to the console
    only and is left out of [destroy_handler]'s body. *)

Definition call (c : Closure) : M Value :=
  match c with
  | someEvent_listener scope element =>
      element_tooltip element (title_fn scope) ;;;
      set_prop scope "val" (Str (Array_join (new_Array 999999) "x")) ;;;
      ret Undefined
  | title_fn scope =>
      title <~ get_prop scope "title" ;;
      val <~ get_prop scope "val" ;;
      ret (Str (concat (concat "Rating is " title) val))
  | destroy_handler cleanUp =>
      deregister cleanUp ;;;
      ret Undefined
  end.

(** *** The link function, lines 6-21 *)

Definition link (scope element : loc) (attr : gmap string Value) : M unit :=
  set_prop scope "val" (Str (Array_join (new_Array 999999) "x")) ;;;
  cleanUp <~ rootScope_on "someEvent" (someEvent_listener scope element) ;;
  ret tt.

(** The link function with the comment of lines 17-20 turned back into code.
    It is not what the source runs; it is kept to compare with [link]. *)
Definition link_with_cleanup (scope element : loc) (attr : gmap string Value)
  : M unit :=
  set_prop scope "val" (Str (Array_join (new_Array 999999) "x")) ;;;
  cleanUp <~ rootScope_on "someEvent" (someEvent_listener scope element) ;;
  element_on element "$destroy" (destroy_handler cleanUp).

(** The directive definition object, lines 3-24. *)
Record Directive := mkDirective {
  restrict : string;
  isolate_scope : gmap string string;
    (** the bindings of the isolate scope; [scope: {}] declares none *)
  link_fn : loc → loc → gmap string Value → M unit;
  template : string }.

Definition rootTest : Directive :=
  mkDirective "E" ∅ link "<div>Root</div>".

Definition rootTest_with_cleanup : Directive :=
  mkDirective "E" ∅ link_with_cleanup "<div>Root</div>".

(** *** How the framework drives the directive *)

(** A fresh isolate scope: an object with no properties of its own, attached
    under [$rootScope]. *)
Definition new_scope : M loc :=
  λ w, (next w,
        mkWorld (<[next w := ∅]> (scopes w)) (dom_elements w) (listeners w)
                ({[next w]} ∪ children w) (released w) (Pos.succ (next w))).

Definition new_dom_element : M loc :=
  λ w, (next w,
        mkWorld (scopes w) (<[next w := new_element]> (dom_elements w))
                (listeners w) (children w) (released w) (Pos.succ (next w))).

(** Instantiating the directive on a [<root-test>] element: the framework
    makes the isolate scope and the element, then calls [link]. *)
Definition compile (d : Directive) : M (loc * loc) :=
  scope <~ new_scope ;;
  element <~ new_dom_element ;;
  link_fn d scope element ∅ ;;;
  ret (scope, element).

Fixpoint call_all (cs : list Closure) : M unit :=
  match cs with
  | [] => ret tt
  | c :: cs' => call c ;;; call_all cs'
  end.

(** The listeners still registered for [name], in registration order. *)
Definition listeners_for (name : string) (w : World) : list Closure :=
  omap (λ entry, if decide (entry.1 = name) then entry.2 else None)
       (listeners w).

(** [$rootScope.$broadcast(name)] *)
Definition rootScope_broadcast (name : string) : M unit :=
  λ w, call_all (listeners_for name w) w.

Definition handlers_for (e : loc) (name : string) (w : World) : list Closure :=
  omap (λ h, if decide (h.1 = name) then Some h.2 else None)
       (on_handlers (get_element e w)).

(** The element's handlers for [name] are run. *)
Definition element_trigger (e : loc) (name : string) : M unit :=
  λ w, call_all (handlers_for e name w) w.

(** [scope.$destroy()]: the scope is detached from [$rootScope]. *)
Definition scope_destroy (scope : loc) : M unit :=
  λ w, (tt, mkWorld (scopes w) (dom_elements w) (listeners w)
                    (children w ∖ {[scope]}) (released w) (next w)).

(** Leaving the view: the scope is destroyed and the element is removed,
    which fires ['$destroy'] on it. *)
Definition destroy (scope element : loc) : M unit :=
  scope_destroy scope ;;;
  element_trigger element "$destroy".

(** What can happen to the directive during a session. *)
Inductive Action :=
| Compile
| Broadcast (name : string)
| Destroy (scope element : loc).

Definition step (d : Directive) (a : Action) : M unit :=
  match a with
  | Compile => compile d ;;; ret tt
  | Broadcast name => rootScope_broadcast name
  | Destroy scope element => destroy scope element
  end.

(** How many times a trace instantiates the directive. *)
Fixpoint compilations (tr : list Action) : nat :=
  match tr with
  | [] => 0
  | Compile :: tr' => S (compilations tr')
  | _ :: tr' => compilations tr'
  end.

Definition run (d : Directive) (tr : list Action) (w : World) : World :=
  foldl (λ w a, exec (step d a) w) w tr.

(** One run of the scenario: the view with [<root-test>] is entered, then
    left. *)
Definition scenario (d : Directive) : M unit :=
  view <~ compile d ;;
  destroy view.1 view.2.

Fixpoint scenarios (d : Directive) (n : nat) : M unit :=
  match n with
  | O => ret tt
  | S n' => scenarios d n' ;;; scenario d
  end.

(** *** What stays reachable from [$rootScope] *)

Definition live_listeners (w : World) : list Closure :=
  omap snd (listeners w).

Definition captured_scopes (c : Closure) : list loc :=
  match c with
  | someEvent_listener scope _ => [scope]
  | title_fn scope => [scope]
  | destroy_handler _ => []
  end.

Definition captured_elements (c : Closure) : list loc :=
  match c with
  | someEvent_listener _ element => [element]
  | _ => []
  end.

Definition element_closures (w : World) (e : loc) : list Closure :=
  tooltip_titles (get_element e w) ++ (on_handlers (get_element e w)).*2.

(** The registered listeners, and the closures held by the elements they
    capture. *)
Definition reachable_closures (w : World) : list Closure :=
  live_listeners w ++
  ((live_listeners w ≫= captured_elements) ≫= element_closures w).

(** The scopes the collector cannot reclaim: the children of [$rootScope]
    and the scopes captured by a reachable closure. *)
Definition retained_scopes (w : World) : gset positive :=
  children w ∪ list_to_set (reachable_closures w ≫= captured_scopes).

Definition value_size (v : Value) : nat :=
  match v with
  | Str s => String.length s
  | _ => 0
  end.

Definition object_size (o : gmap string Value) : nat :=
  map_fold (λ _ v n, value_size v + n) 0 o.

(** The characters held by the retained scopes. *)
Definition retained_chars (w : World) : nat :=
  sum_list_with (λ s, object_size (get_object s w))
                (elements (retained_scopes w)).

(** *** The shape of every world the directive can reach *)

(** The string both assignments to [scope.val] write. *)
Definition large_string : string := String_repeat "x" (N.to_nat 999998).

Definition listener_entry (view : loc * loc) : string * option Closure :=
  ("someEvent", Some (someEvent_listener view.1 view.2)).

(** [views] lists the (scope, element) pairs [link] has been called on, oldest
    first. *)
Record Inv (views : list (loc * loc)) (w : World) : Prop := mkInv {
  inv_listeners : listeners w = listener_entry <$> views;
  inv_fresh : ∀ v, v ∈ views → (v.1 < next w)%positive ∧ (v.2 < next w)%positive;
  inv_nodup : NoDup views.*1;
  inv_children : ∀ s, s ∈ children w → s ∈ views.*1;
  inv_scopes : ∀ s, s ∈ views.*1 ↔ is_Some (scopes w !! s);
  inv_val : ∀ s o, scopes w !! s = Some o → o = {[ "val" := Str large_string ]};
  inv_elements : ∀ e el, dom_elements w !! e = Some el →
      on_handlers el = [] ∧
      ∀ c, c ∈ tooltip_titles el → ∃ s, c = title_fn s ∧ (s, e) ∈ views;
  inv_released : released w = [] }.

(** *** What a round of listener calls hands to one element *)

(** The title closures element [e] receives when the listeners [cs] are
    called in turn. *)
Definition titles_for (e : loc) (cs : list Closure) : list Closure :=
  omap (λ c, match c with
             | someEvent_listener scope element =>
                 if decide (element = e) then Some (title_fn scope) else None
             | _ => None
             end) cs.

End RootDirective.

(** ** The controller and the route table ([app.js]) *)

Module App.
Import JS.

(** *** What the code of [app.js] reaches outside itself *)

(** A call either returns or throws. *)
Inductive Outcome (A : Type) :=
| Returned (a : A)
| Thrown (e : Value).
Arguments Returned {A} a.
Arguments Thrown {A} e.

(** The state of a [$q] promise. *)
Inductive Promise (A : Type) :=
| Pending
| Fulfilled (a : A)
| Rejected (reason : Value).
Arguments Pending {A}.
Arguments Fulfilled {A} a.
Arguments Rejected {A} reason.

(** The response object of [$http]. *)
Record Response := mkResponse {
  data : Value;
  status : N }.

(** The calls to services that are not defined in [app.js], as they are
    observed from outside. *)
Inductive Call :=
| ScenariosService_call (method : string) (args : list Value)
| console_log_stringify (o : gmap string string)
    (** [console.log(JSON.stringify(o))] *)
| http_get_call (url : string).

(** What the surroundings answer. *)
Record Env := mkEnv {
  location_path : string;
    (** the value of [$location.path()] *)
  route_current_params : gmap string string;
    (** [$route.current.params] *)
  http_backend : string → Promise Response;
    (** how the request to each url settles *)
  ScenariosService_behaviour : string → Outcome Value
    (** what each method of [ScenariosService] does when called *) }.

(** Code reads the environment, appends to the log of calls, and returns or
    throws. *)
Definition M (A : Type) : Type := Env → list Call → Outcome A * list Call.

Definition ret {A} (a : A) : M A := λ _ log, (Returned a, log).

(** Sequencing: a throw ends the function, there is no handler. *)
Definition bind {A B} (m : M A) (k : A → M B) : M B :=
  λ env log,
    match m env log with
    | (Returned a, log') => k a env log'
    | (Thrown e, log') => (Thrown e, log')
    end.

Notation "x <~ m ;; k" := (bind m (λ x, k))
  (at level 90, m at next level, right associativity).
Notation "m ;;; k" := (bind m (λ _, k))
  (at level 90, right associativity).

Definition ScenariosService (method : string) (args : list Value) : M Value :=
  λ env log, (ScenariosService_behaviour env method,
              log ++ [ScenariosService_call method args]).

Definition console_log_JSON_stringify (o : gmap string string) : M unit :=
  λ _ log, (Returned tt, log ++ [console_log_stringify o]).

(** [$http.get(url)]: the request is sent, its promise comes back. *)
Definition http_get (url : string) : M (Promise Response) :=
  λ env log, (Returned (http_backend env url), log ++ [http_get_call url]).

(** [$location.path()] *)
Definition location_path_get : M string :=
  λ env log, (Returned (location_path env), log).

(** [$route.current.params] *)
Definition route_params : M (gmap string string) :=
  λ env log, (Returned (route_current_params env), log).

(** [promise.then(onFulfilled, onRejected)] for handlers that do not throw;
    without [onRejected] a rejection passes through. *)
Definition promise_then {A B} (p : Promise A) (onFulfilled : A → B)
    (onRejected : option (Value → B)) : Promise B :=
  match p with
  | Pending => Pending
  | Fulfilled a => Fulfilled (onFulfilled a)
  | Rejected reason =>
      match onRejected with
      | None => Rejected reason
      | Some handler => Fulfilled (handler reason)
      end
  end.

(** [o.p] on an object of strings; a missing property is [undefined]. *)
Definition param (o : gmap string string) (p : string) : Value :=
  match o !! p with
  | Some s => Str s
  | None => Undefined
  end.

(** *** [HomeController], lines 3-24 *)

(** A function put on [$scope]: it receives the arguments of the call. *)
Definition ScopeFunction : Type := list Value → M Value.

Definition isActive : ScopeFunction := λ args,
  let viewLocation := nth 0 args Undefined in
  path <~ location_path_get ;;
  ret (Boolean (strict_equals viewLocation (Str path))).

Definition scenario1 : ScopeFunction := λ _,
  ScenariosService "scenario1" [] ;;;
  ret Undefined.

Definition scenario2 : ScopeFunction := λ _,
  ScenariosService "scenario2" [] ;;;
  ret Undefined.

Definition scenario3 : ScopeFunction := λ _,
  ScenariosService "scenario3" [] ;;;
  ret Undefined.

Definition scenario4 : ScopeFunction := λ _,
  ScenariosService "scenario4" [] ;;;
  ret Undefined.

(** [f] does one thing: it calls [ScenariosService.method()] with no
    argument.  It returns [undefined], or throws what the method throws. *)
Definition forwards_to (f : ScopeFunction) (method : string) : Prop :=
  ∀ args env log,
    f args env log =
    (match ScenariosService_behaviour env method with
     | Returned _ => Returned Undefined
     | Thrown e => Thrown e
     end,
     log ++ [ScenariosService_call method []]).

(** The controller function: the properties it assigns on [$scope], in the
    order of the source. *)
Definition HomeController (scope : gmap string ScopeFunction)
  : gmap string ScopeFunction :=
  <["scenario4" := scenario4]>
    (<["scenario3" := scenario3]>
      (<["scenario2" := scenario2]>
        (<["scenario1" := scenario1]>
          (<["isActive" := isActive]> scope)))).

(** *** The route table, lines 25-55 *)

(** [resolve.album], lines 31-37. *)
Definition resolve_album : M (Promise Value) :=
  params <~ route_params ;;
  console_log_JSON_stringify params ;;;
  params' <~ route_params ;;
  request <~ http_get (concat "api/album/" (param params' "albumId")) ;;
  ret (promise_then request (λ response, data response) None).

(** A route object.  The routes of [app.js] set no [redirectTo]; the entries
    the router adds by itself do. *)
Record Route := mkRoute {
  templateUrl : option string;
  route_template : option string;
  controller : option string;
  resolve : list (string * M (Promise Value));
  redirectTo : option string }.

(** [$routeProvider]: the table [routes], keyed by path in the order the keys
    were first set, and the fallback (the entry the router keeps under
    [null]). *)
Record RouteProvider := mkRouteProvider {
  routes : list (string * Route);
  otherwise_route : option Route }.

(** [routes[key] = route]: a key already there keeps its place. *)
Fixpoint set_route (key : string) (route : Route) (rs : list (string * Route))
  : list (string * Route) :=
  match rs with
  | [] => [(key, route)]
  | (k, r) :: rs' =>
      if bool_decide (k = key) then (key, route) :: rs'
      else (k, r) :: set_route key route rs'
  end.

Fixpoint ends_with (c : ascii) (s : string) : bool :=
  match s with
  | EmptyString => false
  | String d s' =>
      match s' with
      | EmptyString => Ascii.eqb d c
      | String _ _ => ends_with c s'
      end
  end.

Fixpoint drop_last (s : string) : string :=
  match s with
  | EmptyString => ""
  | String d s' =>
      match s' with
      | EmptyString => ""
      | String _ _ => String d (drop_last s')
      end
  end.

(** The same path with the trailing slash taken off, or put on. *)
Definition redirect_path (path : string) : string :=
  if ends_with "/" path then drop_last path else path +:+ "/".

Definition redirect_route (path : string) : Route :=
  mkRoute None None None [] (Some path).

(** [$routeProvider.when(path, route)]: the route is stored under [path], and
    for a non-empty [path] a redirection to it is stored under the path with
    the other choice of trailing slash. *)
Definition when (path : string) (route : Route) (p : RouteProvider)
  : RouteProvider :=
  let rs := set_route path route (routes p) in
  mkRouteProvider
    (if bool_decide (path = "") then rs
     else set_route (redirect_path path) (redirect_route path) rs)
    (otherwise_route p).

Definition otherwise (route : Route) (p : RouteProvider) : RouteProvider :=
  mkRouteProvider (routes p) (Some route).

Definition album_route : Route :=
  mkRoute (Some "app/album/album.html") None (Some "AlbumController")
          [("album", resolve_album)] None.

Definition toprated_route : Route :=
  mkRoute (Some "app/toprated/toprated.html") None (Some "TopRatedController")
          [] None.

Definition root_route : Route :=
  mkRoute None (Some "<div><root-test></root-test></div>") None [] None.

Definition scope_route : Route :=
  mkRoute None (Some "<div><scope-test></scope-test></div>") None [] None.

Definition albums_route : Route :=
  mkRoute (Some "app/albums/albums.html") None (Some "AlbumsController") []
          None.

(** The [config] block. *)
Definition config (routeProvider : RouteProvider) : RouteProvider :=
  otherwise albums_route
    (when "/scope" scope_route
      (when "/root" root_route
        (when "/toprated" toprated_route
          (when "/album/:albumId" album_route routeProvider)))).

Definition app_routes : RouteProvider := config (mkRouteProvider [] None).

(** *** How the router picks a route *)

(** The pieces of a path between slashes. *)
Fixpoint segments (s : string) : list string :=
  match s with
  | EmptyString => [""]
  | String c s' =>
      if Ascii.eqb c "/" then "" :: segments s'
      else match segments s' with
           | seg :: segs => String c seg :: segs
           | [] => [String c ""]
           end
  end.

Fixpoint contains_char (c : ascii) (s : string) : bool :=
  match s with
  | EmptyString => false
  | String d s' => Ascii.eqb d c || contains_char c s'
  end.

(** A piece [:key] of a pattern takes any non-empty piece of the path and
    binds it to [key]; any other piece must be matched literally. *)
Definition match_segment (pattern piece : string)
  : option (gmap string string) :=
  match pattern with
  | String c key =>
      if Ascii.eqb c ":" then
        if bool_decide (piece = "") then None else Some {[ key := piece ]}
      else if bool_decide (pattern = piece) then Some ∅ else None
  | EmptyString => if bool_decide (piece = "") then Some ∅ else None
  end.

Fixpoint match_segments (patterns pieces : list string)
  : option (gmap string string) :=
  match patterns, pieces with
  | [], [] => Some ∅
  | p :: ps, x :: xs =>
      match match_segment p x, match_segments ps xs with
      | Some m1, Some m2 => Some (m1 ∪ m2)
      | _, _ => None
      end
  | _, _ => None
  end.

Definition match_path (pattern path : string) : option (gmap string string) :=
  match_segments (segments pattern) (segments path).

(** The first route whose pattern matches, with the parameters it binds. *)
Fixpoint find_route (rs : list (string * Route)) (path : string)
  : option (Route * gmap string string) :=
  match rs with
  | [] => None
  | (pattern, route) :: rs' =>
      match match_path pattern path with
      | Some params => Some (route, params)
      | None => find_route rs' path
      end
  end.

(** The entry of the table for a path: the first match, else the fallback. *)
Definition parse_route (p : RouteProvider) (path : string)
  : option (Route * gmap string string) :=
  match find_route (routes p) path with
  | Some found => Some found
  | None =>
      match otherwise_route p with
      | Some route => Some (route, ∅)
      | None => None
      end
  end.

(** The path a redirection leads to: each piece [:key] of the target is
    replaced by the parameter bound to [key] (by nothing when there is
    none). *)
Definition interpolate (target : string) (params : gmap string string)
  : string :=
  String.concat "/"
    ((λ piece,
        match piece with
        | String c key =>
            if Ascii.eqb c ":" then default "" (params !! key) else piece
        | EmptyString => ""
        end) <$> segments target).

(** Following redirections: an entry with [redirectTo] changes the location,
    and the table is consulted again with the new path.  [fuel] bounds the
    number of redirections followed. *)
Fixpoint follow_redirects (fuel : nat) (p : RouteProvider) (path : string)
  : option (Route * gmap string string) :=
  match parse_route p path with
  | Some (route, params) =>
      match redirectTo route with
      | None => Some (route, params)
      | Some target =>
          match fuel with
          | O => None
          | S fuel' => follow_redirects fuel' p (interpolate target params)
          end
      end
  | None => None
  end.

(** The route the router ends up serving for a path, with its parameters.
    There is none when the table has no entry for the path and no fallback,
    or when the redirections go round in a circle (more of them in a row than
    the table has entries). *)
Definition route_for (p : RouteProvider) (path : string)
  : option (Route * gmap string string) :=
  follow_redirects (length (routes p)) p path.

(** The template a route shows: its file or its inline text. *)
Definition inline_template (r : Route) : string :=
  default "" (route_template r).

(** The names of the elements a template opens. *)
Fixpoint tag_name (s : string) : string :=
  match s with
  | EmptyString => ""
  | String c s' =>
      if Ascii.eqb c ">" || Ascii.eqb c " " || Ascii.eqb c "/" then ""
      else String c (tag_name s')
  end.

Fixpoint tags (s : string) : list string :=
  match s with
  | EmptyString => []
  | String c s' =>
      if Ascii.eqb c "<" then
        match s' with
        | String d _ => if Ascii.eqb d "/" then tags s' else tag_name s' :: tags s'
        | EmptyString => []
        end
      else tags s'
  end.


End App.

(** ** The directive when a service it calls fails *)

(** [root.directive.js] again, with the two services it calls allowed to
    throw.  The operations on the store are those of [RootDirective]; where
    no service fails, the functions below do what the functions of
    [RootDirective] do. *)
Module RootDirectiveFailing.
Import JS RootDirective.

(** Which calls throw, and what. *)
Record Failures := mkFailures {
  on_fails : string → option Value;
    (** [$rootScope.$on(name, ...)] throws this *)
  tooltip_fails : positive → option Value
    (** [element.tooltip(...)] on this element throws this *) }.

Definition MF (A : Type) : Type := Failures → World → App.Outcome A * World.

Definition ret {A} (a : A) : MF A := λ _ w, (App.Returned a, w).

(** Sequencing: a throw ends the function; the file has no handler. *)
Definition bind {A B} (m : MF A) (k : A → MF B) : MF B :=
  λ f w,
    match m f w with
    | (App.Returned a, w') => k a f w'
    | (App.Thrown e, w') => (App.Thrown e, w')
    end.

Declare Scope failing_scope.
Delimit Scope failing_scope with failing.
Notation "x <~ m ;; k" := (bind m (λ x, k))
  (at level 90, m at next level, right associativity) : failing_scope.
Notation "m ;;; k" := (bind m (λ _, k))
  (at level 90, right associativity) : failing_scope.
Local Open Scope failing_scope.

(** An operation on the store; it cannot fail. *)
Definition lift {A} (m : M A) : MF A :=
  λ _ w, let (a, w') := m w in (App.Returned a, w').

Definition rootScope_on (name : string) (listener : Closure)
  : MF Deregistration :=
  λ f w,
    match on_fails f name with
    | Some e => (App.Thrown e, w)
    | None => lift (RootDirective.rootScope_on name listener) f w
    end.

Definition element_tooltip (e : loc) (title : Closure) : MF unit :=
  λ f w,
    match tooltip_fails f e with
    | Some err => (App.Thrown err, w)
    | None => lift (RootDirective.element_tooltip e title) f w
    end.

(** The bodies of the closures, lines 8-15, 10-12 and 17-20. *)
Definition call (c : Closure) : MF Value :=
  match c with
  | someEvent_listener scope element =>
      element_tooltip element (title_fn scope) ;;;
      lift (set_prop scope "val" (Str (Array_join (new_Array 999999) "x"))) ;;;
      ret Undefined
  | title_fn scope =>
      title <~ lift (get_prop scope "title") ;;
      val <~ lift (get_prop scope "val") ;;
      ret (Str (concat (concat "Rating is " title) val))
  | destroy_handler cleanUp =>
      lift (deregister cleanUp) ;;;
      ret Undefined
  end.

(** The link function, lines 6-21. *)
Definition link (scope element : loc) (attr : gmap string Value) : MF unit :=
  lift (set_prop scope "val" (Str (Array_join (new_Array 999999) "x"))) ;;;
  cleanUp <~ rootScope_on "someEvent" (someEvent_listener scope element) ;;
  ret tt.

End RootDirectiveFailing.

(** ** The scripts and the module registry *)

Module Scripts.

(** What a module of the framework collects. *)
Record NgModule := mkNgModule {
  requires : list string;
  controllers : list string;
  directives : list string;
  config_blocks : list (App.RouteProvider → App.RouteProvider) }.

(** [angular.module(name, requires)] defines a module. *)
Definition module_define (name : string) (deps : list string)
    (reg : gmap string NgModule) : gmap string NgModule :=
  <[name := mkNgModule deps [] [] []]> reg.

(** [angular.module(name).f(...)]: the module must exist, else the call
    throws and the script stops. *)
Definition module_update (name : string) (f : NgModule → NgModule)
    (reg : gmap string NgModule) : option (gmap string NgModule) :=
  match reg !! name with
  | Some m => Some (<[name := f m]> reg)
  | None => None
  end.

Definition add_controller (name : string) (m : NgModule) : NgModule :=
  mkNgModule (requires m) (controllers m ++ [name]) (directives m)
             (config_blocks m).

Definition add_directive (name : string) (m : NgModule) : NgModule :=
  mkNgModule (requires m) (controllers m) (directives m ++ [name])
             (config_blocks m).

Definition add_config (block : App.RouteProvider → App.RouteProvider)
    (m : NgModule) : NgModule :=
  mkNgModule (requires m) (controllers m) (directives m)
             (config_blocks m ++ [block]).

(** [app.js]: lines 1, 3 and 25. *)
Definition app_js (reg : gmap string NgModule) : option (gmap string NgModule) :=
  reg1 ← Some (module_define "app" ["ngRoute"; "angularModalService"] reg);
  reg2 ← module_update "app" (add_controller "HomeController") reg1;
  module_update "app" (add_config App.config) reg2.

(** [root.directive.js]: lines 1-2. *)
Definition root_directive_js (reg : gmap string NgModule)
  : option (gmap string NgModule) :=
  module_update "app" (add_directive "rootTest") reg.



(** The page loads the scripts in this order. *)
Definition load_sources : option (gmap string NgModule) :=
  app_js ∅ ≫= root_directive_js.

End Scripts.

(** * Facts about the JavaScript primitives *)

Section JS_facts.
Import JS.

Lemma join_holes (n : nat) (sep : string) :
  Array_join (repeat None n) sep = String_repeat sep (n - 1).
Proof.
  induction n as [|n IH]; [reflexivity|].
  destruct n as [|n]; [reflexivity|].
  change (Array_join (repeat None (S (S n))) sep)
    with ("" +:+ sep +:+ Array_join (repeat None (S n)) sep).
  rewrite IH. simpl. by rewrite Nat.sub_0_r.
Qed.

Lemma length_append (s t : string) :
  String.length (s +:+ t) = String.length s + String.length t.
Proof. induction s as [|c s IH]; simpl; [reflexivity | by rewrite IH]. Qed.

Lemma String_repeat_length (s : string) (n : nat) :
  String.length (String_repeat s n) = n * String.length s.
Proof.
  induction n as [|n IH]; [reflexivity|].
  simpl. rewrite length_append, IH. lia.
Qed.

Lemma String_repeat_all_chars (c : ascii) (n : nat) :
  all_chars c (String_repeat (String c EmptyString) n) = true.
Proof.
  induction n as [|n IH]; [reflexivity|].
  change (all_chars c (String c (String_repeat (String c EmptyString) n)) = true).
  cbn [all_chars]. rewrite IH. by rewrite bool_decide_eq_true_2.
Qed.

Lemma new_Array_join_x :
  Array_join (new_Array 999999) "x" = RootDirective.large_string.
Proof.
  unfold new_Array, RootDirective.large_string. rewrite join_holes.
  replace (N.to_nat 999999 - 1) with (N.to_nat 999998) by lia.
  reflexivity.
Qed.

Lemma large_string_length :
  String.length RootDirective.large_string = N.to_nat 999998.
Proof.
  unfold RootDirective.large_string. rewrite String_repeat_length.
  change (String.length "x") with 1. lia.
Qed.

Lemma large_string_all_x :
  all_chars "x" RootDirective.large_string = true.
Proof. apply String_repeat_all_chars. Qed.

End JS_facts.

#[global] Arguments JS.new_Array : simpl never.
#[global] Arguments JS.Array_join : simpl never.
#[global] Arguments JS.String_repeat : simpl never.
#[global] Opaque RootDirective.large_string.

(** * The [rootTest] directive *)

Section RootDirective_facts.
Import JS RootDirective.

(** ** What each operation does to the world *)

Lemma exec_seq {A B} (m : M A) (k : M B) (w : World) :
  exec (m ;;; k) w = exec k (exec m w).
Proof. unfold exec, bind. by destruct (m w). Qed.

Lemma link_exec (s e : loc) (attr : gmap string Value) (w : World) :
  exec (link s e attr) w =
  mkWorld (<[s := <["val" := Str large_string]> (get_object s w)]> (scopes w))
          (dom_elements w) (listeners w ++ [listener_entry (s, e)])
          (children w) (released w) (next w).
Proof. rewrite <- new_Array_join_x. reflexivity. Qed.

Lemma listener_exec (s e : loc) (w : World) :
  exec (call (someEvent_listener s e)) w =
  mkWorld (<[s := <["val" := Str large_string]> (get_object s w)]> (scopes w))
          (<[e := mkElement (tooltip_titles (get_element e w) ++ [title_fn s])
                            (on_handlers (get_element e w))]> (dom_elements w))
          (listeners w) (children w) (released w) (next w).
Proof. rewrite <- new_Array_join_x. reflexivity. Qed.

Lemma compile_exec (w : World) :
  exec (compile rootTest) w =
  mkWorld (<[next w := {[ "val" := Str large_string ]}]> (scopes w))
          (<[Pos.succ (next w) := new_element]> (dom_elements w))
          (listeners w ++ [listener_entry (next w, Pos.succ (next w))])
          ({[next w]} ∪ children w) (released w)
          (Pos.succ (Pos.succ (next w))).
Proof.
  change (exec (compile rootTest) w) with
    (exec (link (next w) (Pos.succ (next w)) ∅)
          (exec new_dom_element (exec new_scope w))).
  rewrite link_exec. unfold exec, new_dom_element, new_scope, get_object.
  cbn [snd scopes dom_elements listeners children released next].
  rewrite lookup_insert_eq. cbn [default from_option id].
  by rewrite insert_insert_eq, insert_empty.
Qed.

Lemma compile_result (d : Directive) (w : World) :
  (compile d w).1 = (next w, Pos.succ (next w)).
Proof.
  unfold compile, bind, new_scope, new_dom_element, ret.
  cbn [next]. by destruct (link_fn d _ _ _ _).
Qed.

Lemma run_snoc (d : Directive) (tr : list Action) (a : Action) (w : World) :
  run d (tr ++ [a]) w = exec (step d a) (run d tr w).
Proof. unfold run. by rewrite foldl_snoc. Qed.

Lemma run_app (d : Directive) (tr1 tr2 : list Action) (w : World) :
  run d (tr1 ++ tr2) w = run d tr2 (run d tr1 w).
Proof. unfold run. by rewrite foldl_app. Qed.

Lemma scenario_run (d : Directive) (w : World) :
  exec (scenario d) w =
  run d [Compile; Destroy (next w) (Pos.succ (next w))] w.
Proof.
  unfold scenario, run, exec, step, bind, ret. cbn [foldl].
  pose proof (compile_result d w) as Hres.
  destruct (compile d w) as [view w']. cbn [fst snd] in *. by subst view.
Qed.

Lemma compilations_app (tr1 tr2 : list Action) :
  compilations (tr1 ++ tr2) = compilations tr1 + compilations tr2.
Proof.
  induction tr1 as [|a tr1 IH]; [done|].
  destruct a; cbn [app compilations]; rewrite IH; lia.
Qed.

Lemma scenarios_run (d : Directive) (n : nat) :
  ∃ tr, exec (scenarios d n) initial = run d tr initial ∧ compilations tr = n.
Proof.
  induction n as [|n (tr & IH & Hn)]; [by exists []|].
  cbn [scenarios]. rewrite exec_seq, IH, scenario_run.
  eexists (tr ++ [_; _]). rewrite run_app, compilations_app, Hn.
  split; [done|]. cbn. lia.
Qed.

(** ** The invariant holds in every reachable world *)

Lemma Inv_initial : Inv [] initial.
Proof.
  split; cbn; try done.
  - intros v Hv. by apply elem_of_nil in Hv.
  - constructor.
  - intros s. split; [intros Hs; by apply elem_of_nil in Hs|].
    intros [o Ho]. by rewrite lookup_empty in Ho.
Qed.

Lemma fmap_snoc {A B} (f : A → B) (l : list A) (x : A) :
  f <$> (l ++ [x]) = (f <$> l) ++ [f x].
Proof. by rewrite fmap_app. Qed.

Lemma Inv_compile (views : list (loc * loc)) (w : World) :
  Inv views w →
  Inv (views ++ [(next w, Pos.succ (next w))]) (exec (compile rootTest) w).
Proof.
  intros [Hl Hf Hnd Hc Hs Hv He Hr]. rewrite compile_exec.
  split; cbn [scopes dom_elements listeners children released next].
  - by rewrite Hl, fmap_snoc.
  - intros v [Hv'|Hv']%elem_of_app.
    + destruct (Hf v Hv'). lia.
    + apply list_elem_of_singleton in Hv' as ->. cbn. lia.
  - rewrite fmap_snoc. apply NoDup_app. split; [done|].
    split; [|apply NoDup_singleton].
    intros s Hs' ->%list_elem_of_singleton.
    apply list_elem_of_fmap in Hs' as (v & Heq & Hv').
    destruct (Hf v Hv'). cbn in Heq. lia.
  - intros s.
    rewrite fmap_snoc, elem_of_app, elem_of_union, elem_of_singleton,
      list_elem_of_singleton.
    intros [->|Hs']; [by right|left; auto].
  - intros s.
    rewrite fmap_snoc, elem_of_app, lookup_insert_is_Some, Hs,
      list_elem_of_singleton.
    cbn. destruct (decide (next w = s)); intuition congruence.
  - intros s o [[<- <-]|[? Ho]]%lookup_insert_Some; [done|eauto].
  - intros e el [[<- <-]|[? Hel]]%lookup_insert_Some.
    + split; [done|]. intros c Hc'. by apply elem_of_nil in Hc'.
    + destruct (He e el Hel) as [? Ht]. split; [done|].
      intros c Hc'. destruct (Ht c Hc') as (s & -> & ?).
      exists s. rewrite elem_of_app. auto.
  - done.
Qed.

Lemma Inv_listener (views : list (loc * loc)) (w : World) (s e : loc) :
  Inv views w → (s, e) ∈ views →
  Inv views (exec (call (someEvent_listener s e)) w).
Proof.
  intros [Hl Hf Hnd Hc Hs Hv He Hr] Hin. rewrite listener_exec.
  assert (scopes w !! s = Some {[ "val" := Str large_string ]}) as Hobj.
  { destruct (proj1 (Hs s)) as [o Ho].
    - apply list_elem_of_fmap. by exists (s, e).
    - by rewrite Ho, (Hv s o Ho). }
  unfold get_object. rewrite Hobj. cbn [default from_option id].
  rewrite insert_singleton_eq, (insert_id _ _ _ Hobj).
  split; cbn [scopes dom_elements listeners children released next]; try done.
  intros e' el [[<- <-]|[? Hel]]%lookup_insert_Some; [|eauto].
  cbn [on_handlers tooltip_titles]. unfold get_element.
  destruct (dom_elements w !! e) as [el0|] eqn:E; cbn [default from_option id].
  - destruct (He e el0 E) as [H1 H2]. split; [done|].
    intros c [Hc'| ->%list_elem_of_singleton]%elem_of_app; eauto.
  - split; [done|].
    intros c [Hc'| ->%list_elem_of_singleton]%elem_of_app; eauto.
    by apply elem_of_nil in Hc'.
Qed.

Lemma Inv_call_all (views : list (loc * loc)) (cs : list Closure) :
  (∀ c, c ∈ cs → ∃ v, v ∈ views ∧ c = someEvent_listener v.1 v.2) →
  ∀ w, Inv views w → Inv views (exec (call_all cs) w).
Proof.
  induction cs as [|c cs IH]; intros Hcs w HI; cbn [call_all]; [done|].
  rewrite exec_seq. apply IH.
  - intros c' Hc'. apply Hcs. by right.
  - destruct (Hcs c) as ([s e] & Hin & ->); [by left|].
    by apply Inv_listener.
Qed.

Lemma Inv_listeners_for (views : list (loc * loc)) (w : World) (name : string)
    (c : Closure) :
  Inv views w → c ∈ listeners_for name w →
  ∃ v, v ∈ views ∧ c = someEvent_listener v.1 v.2.
Proof.
  intros HI Hc. unfold listeners_for in Hc. rewrite (inv_listeners _ _ HI) in Hc.
  apply list_elem_of_omap in Hc as (entry & Hentry & Hsel).
  apply list_elem_of_fmap in Hentry as (v & -> & Hv).
  exists v. split; [done|]. cbn in Hsel. case_decide; congruence.
Qed.

Lemma Inv_broadcast (views : list (loc * loc)) (w : World) (name : string) :
  Inv views w → Inv views (exec (rootScope_broadcast name) w).
Proof.
  intros HI.
  change (Inv views (exec (call_all (listeners_for name w)) w)).
  apply Inv_call_all; [|done]. intros c. by apply Inv_listeners_for.
Qed.

Lemma Inv_scope_destroy (views : list (loc * loc)) (w : World) (s : loc) :
  Inv views w → Inv views (exec (scope_destroy s) w).
Proof.
  intros [Hl Hf Hnd Hc Hs Hv He Hr].
  split; cbn [exec snd scope_destroy scopes dom_elements listeners children
              released next]; try done.
  intros s' [Hs' _]%elem_of_difference. auto.
Qed.

Lemma Inv_no_handlers (views : list (loc * loc)) (w : World) (e : loc)
    (name : string) :
  Inv views w → handlers_for e name w = [].
Proof.
  intros HI. unfold handlers_for, get_element.
  destruct (dom_elements w !! e) as [el|] eqn:E; cbn [default from_option id].
  - by destruct (inv_elements _ _ HI e el E) as [-> _].
  - done.
Qed.

Lemma destroy_exec (views : list (loc * loc)) (w : World) (s e : loc) :
  Inv views w → exec (destroy s e) w = exec (scope_destroy s) w.
Proof.
  intros HI. unfold destroy. rewrite exec_seq.
  unfold element_trigger, exec at 1.
  by rewrite (Inv_no_handlers views _ e "$destroy" (Inv_scope_destroy _ _ s HI)).
Qed.

Lemma Inv_destroy (views : list (loc * loc)) (w : World) (s e : loc) :
  Inv views w → Inv views (exec (destroy s e) w).
Proof.
  intros HI. rewrite (destroy_exec views _ _ _ HI). by apply Inv_scope_destroy.
Qed.

Lemma Inv_step (views : list (loc * loc)) (w : World) (a : Action) :
  Inv views w →
  ∃ views', Inv (views ++ views') (exec (step rootTest a) w) ∧
            length views' = compilations [a].
Proof.
  intros HI. destruct a as [|name|s e]; cbn [step compilations].
  - exists [(next w, Pos.succ (next w))]. split; [|done].
    rewrite exec_seq. by apply Inv_compile.
  - exists []. rewrite app_nil_r. split; [|done]. by apply Inv_broadcast.
  - exists []. rewrite app_nil_r. split; [|done]. by apply Inv_destroy.
Qed.

Lemma compilations_cons (a : Action) (tr : list Action) :
  compilations (a :: tr) = compilations [a] + compilations tr.
Proof. by destruct a. Qed.

Lemma Inv_run (tr : list Action) :
  ∀ views w, Inv views w →
  ∃ views', Inv (views ++ views') (run rootTest tr w) ∧
            length views' = compilations tr.
Proof.
  induction tr as [|a tr IH]; intros views w HI.
  - exists []. by rewrite app_nil_r.
  - destruct (Inv_step views w a HI) as (v1 & HI1 & Hlen1).
    destruct (IH _ _ HI1) as (v2 & HI2 & Hlen2).
    exists (v1 ++ v2)%list. rewrite compilations_cons, length_app, app_assoc.
    split; [done|lia].
Qed.

Lemma Inv_reachable (tr : list Action) :
  ∃ views, Inv views (run rootTest tr initial) ∧
           length views = compilations tr.
Proof. apply (Inv_run tr [] initial Inv_initial). Qed.

(** ** What the invariant says about reachability *)

Lemma omap_listener_entry (views : list (loc * loc)) :
  omap snd (listener_entry <$> views) =
  (λ v, someEvent_listener v.1 v.2) <$> views.
Proof. induction views as [|v views IH]; [done|]. cbn. by rewrite IH. Qed.

Lemma live_listeners_Inv (views : list (loc * loc)) (w : World) :
  Inv views w →
  live_listeners w = (λ v, someEvent_listener v.1 v.2) <$> views.
Proof.
  intros HI. unfold live_listeners.
  by rewrite (inv_listeners _ _ HI), omap_listener_entry.
Qed.

Lemma listener_retains_scope (w : World) (s e : loc) :
  someEvent_listener s e ∈ live_listeners w → s ∈ retained_scopes w.
Proof.
  intros Hin. unfold retained_scopes, reachable_closures.
  apply elem_of_union. right. apply elem_of_list_to_set, list_elem_of_bind.
  exists (someEvent_listener s e). split; [by left|].
  apply elem_of_app. by left.
Qed.

Lemma retained_scopes_Inv (views : list (loc * loc)) (w : World) :
  Inv views w → retained_scopes w = list_to_set views.*1.
Proof.
  intros HI. apply set_eq. intros x. split.
  - unfold retained_scopes, reachable_closures.
    rewrite (live_listeners_Inv _ _ HI).
    rewrite elem_of_union, !elem_of_list_to_set, list_elem_of_bind.
    intros [Hc | (c & Hx & Hc)]; [by apply (inv_children _ _ HI)|].
    apply elem_of_app in Hc as [Hc|Hc].
    + apply list_elem_of_fmap in Hc as (v & -> & Hv).
      apply list_elem_of_singleton in Hx as ->.
      apply list_elem_of_fmap. by exists v.
    + apply list_elem_of_bind in Hc as (e & Hc & He).
      apply list_elem_of_bind in He as (l & He & Hl).
      apply list_elem_of_fmap in Hl as (v & -> & Hv).
      apply list_elem_of_singleton in He as ->.
      unfold element_closures, get_element in Hc.
      destruct (dom_elements w !! v.2) as [el|] eqn:E;
        cbn [default from_option id] in Hc.
      * destruct (inv_elements _ _ HI _ _ E) as [Hh Ht].
        rewrite Hh, app_nil_r in Hc.
        destruct (Ht c Hc) as (s & -> & Hs).
        apply list_elem_of_singleton in Hx as ->.
        apply list_elem_of_fmap. by exists (s, v.2).
      * by apply elem_of_nil in Hc.
  - rewrite elem_of_list_to_set.
    intros (v & -> & Hv)%list_elem_of_fmap.
    apply (listener_retains_scope w v.1 v.2).
    rewrite (live_listeners_Inv _ _ HI). apply list_elem_of_fmap. by exists v.
Qed.

Lemma sum_list_with_const {A} (f : A → nat) (l : list A) (k : nat) :
  (∀ x, x ∈ l → f x = k) → sum_list_with f l = length l * k.
Proof.
  induction l as [|x l IH]; intros Hf; [done|].
  cbn [sum_list_with length]. rewrite (Hf x), IH; [lia| |by left].
  intros y Hy. apply Hf. by right.
Qed.

Lemma scope_val_Inv (views : list (loc * loc)) (w : World) (s : loc) :
  Inv views w → s ∈ views.*1 →
  get_object s w = {[ "val" := Str large_string ]}.
Proof.
  intros HI Hs. unfold get_object.
  destruct (proj1 (inv_scopes _ _ HI s) Hs) as [o Ho].
  by rewrite Ho, (inv_val _ _ HI s o Ho).
Qed.

Lemma retained_chars_Inv (views : list (loc * loc)) (w : World) :
  Inv views w → retained_chars w = length views * N.to_nat 999998.
Proof.
  intros HI. unfold retained_chars.
  rewrite (retained_scopes_Inv _ _ HI),
    (elements_list_to_set _ (inv_nodup _ _ HI)).
  rewrite (sum_list_with_const _ _ (N.to_nat 999998)); [by rewrite length_fmap|].
  intros s Hs. rewrite (scope_val_Inv _ _ _ HI Hs).
  unfold object_size. rewrite map_fold_singleton.
  cbn [value_size]. rewrite large_string_length. lia.
Qed.

(** ** The leak *)

Lemma scenarios_Inv (n : nat) :
  ∃ views, Inv views (exec (scenarios rootTest n) initial) ∧ length views = n.
Proof.
  destruct (scenarios_run rootTest n) as (tr & -> & <-). apply Inv_reachable.
Qed.

Lemma scenario_Inv (views : list (loc * loc)) (w : World) :
  Inv views w →
  Inv (views ++ [(next w, Pos.succ (next w))]) (exec (scenario rootTest) w).
Proof.
  intros HI. rewrite scenario_run. cbn [run foldl step].
  rewrite exec_seq. apply Inv_destroy. by apply Inv_compile.
Qed.

(** C1: every further run of the scenario strictly increases the retained
    memory, by the 999998 characters of one more scope, because it appends one
    ['someEvent'] listener to [$rootScope] and removes none: after [n] runs
    there are [n] listeners holding [n * 999998] characters. *)
Theorem scenario_leaks_every_time (n : nat) :
  let before := exec (scenarios rootTest n) initial in
  let after := exec (scenarios rootTest (S n)) initial in
  (retained_chars before < retained_chars after)%nat ∧
  retained_chars after = S n * N.to_nat 999998 ∧
  (∃ scope element,
     listeners after =
       listeners before ++ [("someEvent", Some (someEvent_listener scope element))] ∧
     live_listeners after =
       live_listeners before ++ [someEvent_listener scope element] ∧
     (get_prop scope "val" after).1 = Str large_string) ∧
  length (live_listeners after) = S n.
Proof.
  intros before after.
  destruct (scenarios_Inv n) as (views & HI & Hlen). fold before in HI.
  assert (Inv (views ++ [(next before, Pos.succ (next before))]) after) as HI'.
  { subst after. cbn [scenarios]. rewrite exec_seq. by apply scenario_Inv. }
  rewrite (retained_chars_Inv _ _ HI), (retained_chars_Inv _ _ HI').
  rewrite !(live_listeners_Inv _ _ HI'), (live_listeners_Inv _ _ HI).
  rewrite (inv_listeners _ _ HI'), (inv_listeners _ _ HI).
  rewrite !fmap_snoc, !length_app, !length_fmap, Hlen. cbn [length fst snd].
  split; [lia|]. split; [lia|]. split; [|lia].
  exists (next before), (Pos.succ (next before)). split; [done|]. split; [done|].
  unfold get_prop. cbn [fst].
  rewrite (scope_val_Inv _ _ (next before) HI').
  - by rewrite lookup_singleton_eq.
  - rewrite fmap_snoc. apply elem_of_app. right. by left.
Qed.

(** C2: whatever happens to the directive, no deregistration function is ever
    called: no entry of the listener table is nulled, no element carries a
    handler (in particular none for ['$destroy']), and every listener [link]
    registered is still there after the next action. *)
Theorem cleanUp_is_never_called (tr : list Action) :
  let w := run rootTest tr initial in
  released w = [] ∧
  Forall (λ entry, entry.2 ≠ None) (listeners w) ∧
  (∀ element name, handlers_for element name w = []) ∧
  length (live_listeners w) = compilations tr ∧
  (∀ a, live_listeners w `prefix_of` live_listeners (exec (step rootTest a) w)).
Proof.
  intros w. destruct (Inv_reachable tr) as (views & HI & Hlen). fold w in HI.
  split; [apply (inv_released _ _ HI)|].
  split.
  { rewrite (inv_listeners _ _ HI). apply Forall_fmap, Forall_true. by intros v. }
  split; [intros e name; apply (Inv_no_handlers _ _ _ _ HI)|].
  split; [by rewrite (live_listeners_Inv _ _ HI), length_fmap|].
  intros a. destruct (Inv_step _ _ a HI) as (views' & HI' & _).
  rewrite (live_listeners_Inv _ _ HI), (live_listeners_Inv _ _ HI'), fmap_app.
  by apply prefix_app_r.
Qed.

(** With lines 17-20 turned back into code the model does release the
    listener when the view is left: the theorems above are about [link] as
    the source has it, not about the model of the framework. *)
Lemma cleanup_variant_releases :
  let w := run rootTest_with_cleanup [Compile; Destroy 1 2] initial in
  released w = [mkDeregistration "someEvent" 0] ∧ live_listeners w = [].
Proof. with_strategy transparent [gmap_empty] lazy. done. Qed.

(** C3: [link] stores the join of a 999999-slot array with ["x"] (999998
    characters) in [scope.val] and appends to [$rootScope]'s table a
    ['someEvent'] listener whose closure captures that scope; and in every
    world the directive can reach, a scope whose listener is registered is
    retained and still holds that string. *)
Theorem link_captures_large_string :
  (∀ (w : World) (scope element : loc) (attr : gmap string Value),
     let w' := exec (link scope element attr) w in
     (get_prop scope "val" w').1 = Str (Array_join (new_Array 999999) "x") ∧
     String.length (Array_join (new_Array 999999) "x") = N.to_nat 999998 ∧
     listeners w' =
       listeners w ++ [("someEvent", Some (someEvent_listener scope element))] ∧
     scope ∈ captured_scopes (someEvent_listener scope element) ∧
     scope ∈ retained_scopes w') ∧
  (∀ (tr : list Action) (scope element : loc),
     let w := run rootTest tr initial in
     someEvent_listener scope element ∈ live_listeners w →
     scope ∈ retained_scopes w ∧
     (get_prop scope "val" w).1 = Str (Array_join (new_Array 999999) "x") ∧
     (N.to_nat 999998 ≤ retained_chars w)%nat).
Proof.
  split.
  - intros w scope element attr w'. subst w'. rewrite link_exec.
    rewrite new_Array_join_x, large_string_length.
    split; [|split; [done|split; [done|split; [by left|]]]].
    + unfold get_prop, get_object. cbn [fst scopes].
      rewrite lookup_insert_eq. cbn [default from_option id].
      by rewrite lookup_insert_eq.
    + apply (listener_retains_scope _ scope element).
      unfold live_listeners. cbn [listeners].
      rewrite omap_app. apply elem_of_app. right. by left.
  - intros tr scope element w Hin.
    destruct (Inv_reachable tr) as (views & HI & Hlen). fold w in HI.
    split; [by apply (listener_retains_scope w scope element)|].
    rewrite (live_listeners_Inv _ _ HI) in Hin.
    apply list_elem_of_fmap in Hin as (v & [= -> ->] & Hv).
    rewrite new_Array_join_x. unfold get_prop. cbn [fst].
    rewrite (scope_val_Inv _ _ v.1 HI); [|apply list_elem_of_fmap; by exists v].
    split; [by rewrite lookup_singleton_eq|].
    rewrite (retained_chars_Inv _ _ HI). destruct views; [|cbn; lia].
    by apply elem_of_nil in Hv.
Qed.

Lemma link_captures_large_string_witness :
  (1%positive ∈ retained_scopes (run rootTest [Compile] initial)) ∧
  (get_prop 1%positive "val" (run rootTest [Compile] initial)).1 =
    Str (Array_join (new_Array 999999) "x") ∧
  (N.to_nat 999998 ≤ retained_chars (run rootTest [Compile] initial))%nat.
Proof.
  apply (proj2 link_captures_large_string [Compile] 1%positive 2%positive).
  lazy. left.
Defined.

(** C10: in every world the directive can reach, a scope [link] has run on
    holds in [val] a string of exactly 999998 characters, all of them ['x'];
    firing ['someEvent'] any number of times, before or after, does not
    change that. *)
Theorem scope_val_is_always_the_large_string
    (tr : list Action) (scope element : loc) :
  let w := run rootTest tr initial in
  someEvent_listener scope element ∈ live_listeners w →
  ∃ val : string,
    (get_prop scope "val" w).1 = Str val ∧
    (get_prop scope "val" (exec (rootScope_broadcast "someEvent") w)).1 = Str val ∧
    String.length val = N.to_nat 999998 ∧
    all_chars "x" val = true.
Proof.
  intros w Hin. exists large_string.
  destruct (Inv_reachable tr) as (views & HI & Hlen). fold w in HI.
  pose proof (Inv_broadcast _ _ "someEvent" HI) as HI'.
  rewrite (live_listeners_Inv _ _ HI) in Hin.
  apply list_elem_of_fmap in Hin as (v & [= -> ->] & Hv).
  assert (v.1 ∈ views.*1) as Hs by (apply list_elem_of_fmap; by exists v).
  unfold get_prop. cbn [fst].
  rewrite (scope_val_Inv _ _ v.1 HI Hs), (scope_val_Inv _ _ v.1 HI' Hs).
  rewrite lookup_singleton_eq.
  split; [done|]. split; [done|].
  split; [apply large_string_length|apply large_string_all_x].
Qed.

Lemma scope_val_is_always_the_large_string_witness :
  ∃ val : string,
    (get_prop 1%positive "val"
       (run rootTest [Compile; Broadcast "someEvent"] initial)).1 = Str val ∧
    (get_prop 1%positive "val"
       (exec (rootScope_broadcast "someEvent")
          (run rootTest [Compile; Broadcast "someEvent"] initial))).1 = Str val ∧
    String.length val = N.to_nat 999998 ∧
    all_chars "x" val = true.
Proof.
  apply (scope_val_is_always_the_large_string
           [Compile; Broadcast "someEvent"] 1%positive 2%positive).
  lazy. left.
Defined.

End RootDirective_facts.

(** * The controller and the route table *)

Section App_facts.
Import JS App.

(** ** [HomeController] *)

(** Reads a property that one of a chain of assignments has set. *)
Ltac lookup_inserted :=
  repeat (rewrite lookup_insert_ne by done); rewrite lookup_insert_eq.

Lemma scenario1_forwards : forwards_to scenario1 "scenario1".
Proof.
  intros args env log. unfold scenario1, bind, ScenariosService, ret.
  by destruct (ScenariosService_behaviour env "scenario1").
Qed.

Lemma scenario2_forwards : forwards_to scenario2 "scenario2".
Proof.
  intros args env log. unfold scenario2, bind, ScenariosService, ret.
  by destruct (ScenariosService_behaviour env "scenario2").
Qed.

Lemma scenario3_forwards : forwards_to scenario3 "scenario3".
Proof.
  intros args env log. unfold scenario3, bind, ScenariosService, ret.
  by destruct (ScenariosService_behaviour env "scenario3").
Qed.

Lemma scenario4_forwards : forwards_to scenario4 "scenario4".
Proof.
  intros args env log. unfold scenario4, bind, ScenariosService, ret.
  by destruct (ScenariosService_behaviour env "scenario4").
Qed.

(** C6: the controller puts five functions on [$scope]: [isActive] and the
    four triggers [scenario1] to [scenario4]; trigger [i] makes exactly one
    call, [ScenariosService.scenarioI()] with no argument, and nothing else. *)
Theorem HomeController_scenario_triggers :
  dom (HomeController ∅) =
    ({[ "isActive"; "scenario1"; "scenario2"; "scenario3"; "scenario4" ]}
       : gset string) ∧
  Forall (λ name, ∃ f, HomeController ∅ !! name = Some f ∧ forwards_to f name)
         ["scenario1"; "scenario2"; "scenario3"; "scenario4"].
Proof.
  split.
  - unfold HomeController. rewrite !dom_insert_L, dom_empty_L. set_solver.
  - unfold HomeController. repeat apply Forall_cons_2; [| | | |apply Forall_nil_2].
    + exists scenario1. split; [|apply scenario1_forwards].
      by lookup_inserted.
    + exists scenario2. split; [|apply scenario2_forwards].
      by lookup_inserted.
    + exists scenario3. split; [|apply scenario3_forwards].
      by lookup_inserted.
    + exists scenario4. split; [|apply scenario4_forwards].
      by lookup_inserted.
Qed.

(** C9: [isActive(viewLocation)] is [true] exactly when the string
    [viewLocation] is the one [$location.path()] returns; the call reaches no
    service, throws nothing and leaves the log of calls as it was. *)
Theorem isActive_compares_with_path
    (viewLocation : string) (rest : list Value) (env : Env) (log : list Call) :
  HomeController ∅ !! "isActive" = Some isActive ∧
  ∃ b : bool,
    isActive (Str viewLocation :: rest) env log = (Returned (Boolean b), log) ∧
    (b = true ↔ viewLocation = location_path env).
Proof.
  split.
  { unfold HomeController. by lookup_inserted. }
  exists (strict_equals (Str viewLocation) (Str (location_path env))).
  split; [reflexivity|]. unfold strict_equals. rewrite bool_decide_eq_true.
  split; [by intros [= ->]|by intros ->].
Qed.

(** For an argument of any type the comparison is [===]: equal only to the
    very string. *)
Lemma isActive_strict (viewLocation : Value) (env : Env) (log : list Call) :
  isActive [viewLocation] env log =
  (Returned (Boolean (bool_decide (viewLocation = Str (location_path env)))), log).
Proof. reflexivity. Qed.

(** ** Paths and their pieces *)

Lemma segments_no_slash (s : string) :
  contains_char "/" s = false → segments s = [s].
Proof.
  induction s as [|c s IH]; [done|]. cbn [contains_char segments].
  intros [Hc Hs]%orb_false_iff. by rewrite Hc, (IH Hs).
Qed.

Lemma segments_before_slash (s t : string) :
  contains_char "/" s = false →
  segments (s +:+ String "/" t) = s :: segments t.
Proof.
  induction s as [|c s IH]; [done|]. cbn [contains_char].
  intros [Hc Hs]%orb_false_iff.
  change (String c s +:+ String "/" t) with (String c (s +:+ String "/" t)).
  cbn [segments]. by rewrite Hc, (IH Hs).
Qed.

Lemma segments_not_nil (s : string) : segments s ≠ [].
Proof.
  induction s as [|c s IH]; [done|]. cbn [segments].
  destruct (Ascii.eqb c "/"); [done|]. by destruct (segments s).
Qed.

Lemma segments_join (s : string) : String.concat "/" (segments s) = s.
Proof.
  induction s as [|c s IH]; [done|]. cbn [segments].
  destruct (Ascii.eqb_spec c "/") as [->|Hc].
  - pose proof (segments_not_nil s) as Hnil.
    destruct (segments s) as [|seg segs]; [done|].
    cbn [String.concat]. cbn [String.concat] in IH. by rewrite IH.
  - pose proof (segments_not_nil s) as Hnil.
    destruct (segments s) as [|seg segs]; [done|].
    destruct segs as [|seg' segs]; by rewrite <- IH.
Qed.

Lemma segments_pieces_no_slash (s : string) :
  Forall (λ piece, contains_char "/" piece = false) (segments s).
Proof.
  induction s as [|c s IH]; [by repeat constructor|]. cbn [segments].
  destruct (Ascii.eqb_spec c "/") as [->|Hc]; [by constructor|].
  pose proof (segments_not_nil s) as Hnil.
  destruct (segments s) as [|seg segs]; [done|].
  apply Forall_cons in IH as [Hseg Hsegs].
  constructor; [|done]. cbn [contains_char].
  apply orb_false_iff. split; [|done]. by apply Ascii.eqb_neq.
Qed.

Lemma segments_album (id : string) :
  contains_char "/" id = false →
  segments ("/album/" +:+ id) = [""; "album"; id] ∧
  segments ("/album/" +:+ id +:+ "/") = [""; "album"; id; ""].
Proof.
  intros Hslash. split.
  - cbv [String.append]. cbn. by rewrite (segments_no_slash id Hslash).
  - change ("/album/" +:+ id +:+ "/")
      with ("" +:+ String "/" ("album" +:+ String "/" (id +:+ String "/" ""))).
    by rewrite !segments_before_slash.
Qed.

(** ** Matching a pattern *)

Lemma match_album (id : string) :
  id ≠ "" → contains_char "/" id = false →
  match_path "/album/:albumId" ("/album/" +:+ id) = Some {[ "albumId" := id ]}.
Proof.
  intros Hne Hslash. unfold match_path.
  rewrite (proj1 (segments_album id Hslash)).
  cbn. rewrite (bool_decide_eq_false_2 _ Hne), !bool_decide_eq_true_2 by done.
  by rewrite !(left_id_L ∅ (∪)), (right_id_L ∅ (∪)).
Qed.

Lemma find_route_None (rs : list (string * Route)) (path : string) :
  Forall (λ r, match_path r.1 path = None) rs → find_route rs path = None.
Proof.
  induction 1 as [|[pattern route] rs Hr _ IH]; [done|].
  cbn [find_route]. cbn [fst] in Hr. by rewrite Hr.
Qed.

Lemma match_album_inv (pieces : list string) (params : gmap string string) :
  match_segments [""; "album"; ":albumId"] pieces = Some params →
  ∃ id, pieces = [""; "album"; id] ∧ id ≠ "" ∧ params = {[ "albumId" := id ]}.
Proof.
  destruct pieces as [|a [|b [|id [|d pieces]]]]; cbn;
    repeat case_bool_decide; try done.
  intros [= <-]. subst.
  exists id. by rewrite !(left_id_L ∅ (∪)), (right_id_L ∅ (∪)).
Qed.

Lemma match_album_slash_inv (pieces : list string)
    (params : gmap string string) :
  match_segments [""; "album"; ":albumId"; ""] pieces = Some params →
  ∃ id, pieces = [""; "album"; id; ""] ∧ id ≠ "" ∧
        params = {[ "albumId" := id ]}.
Proof.
  destruct pieces as [|a [|b [|id [|d [|e pieces]]]]]; cbn;
    repeat case_bool_decide; try done.
  intros [= <-]. subst.
  exists id. by rewrite !(left_id_L ∅ (∪)), !(right_id_L ∅ (∪)).
Qed.

Lemma match_segment_literal (pattern piece : string)
    (params : gmap string string) :
  (∀ key, pattern ≠ String ":" key) →
  match_segment pattern piece = Some params → piece = pattern ∧ params = ∅.
Proof.
  intros Hlit. destruct pattern as [|c key]; cbn.
  - case_bool_decide; [|done]. by intros [= <-].
  - destruct (Ascii.eqb_spec c ":") as [->|_]; [by destruct (Hlit key)|].
    case_bool_decide; [|done]. by intros [= <-].
Qed.

Lemma match_literals_inv (patterns : list string) :
  Forall (λ pattern, ∀ key, pattern ≠ String ":" key) patterns →
  ∀ pieces params,
    match_segments patterns pieces = Some params →
    pieces = patterns ∧ params = ∅.
Proof.
  induction 1 as [|pattern patterns Hlit _ IH]; intros [|piece pieces] params;
    cbn [match_segments]; try done.
  - by intros [= <-].
  - destruct (match_segment pattern piece) as [m1|] eqn:H1; [|done].
    destruct (match_segments patterns pieces) as [m2|] eqn:H2; [|done].
    intros [= <-].
    destruct (match_segment_literal _ _ _ Hlit H1) as [-> ->].
    destruct (IH _ _ H2) as [-> ->]. by rewrite (left_id_L ∅ (∪)).
Qed.

Lemma match_literal_path (pattern path : string)
    (params : gmap string string) :
  Forall (λ piece, ∀ key, piece ≠ String ":" key) (segments pattern) →
  match_path pattern path = Some params → path = pattern ∧ params = ∅.
Proof.
  intros Hlit Hm. unfold match_path in Hm.
  destruct (match_literals_inv _ Hlit _ _ Hm) as [Hpieces ->].
  split; [|done]. by rewrite <- (segments_join path), Hpieces, segments_join.
Qed.

Lemma match_album_path (path : string) (params : gmap string string) :
  match_path "/album/:albumId" path = Some params →
  ∃ id, id ≠ "" ∧ contains_char "/" id = false ∧
        path = "/album/" +:+ id ∧ params = {[ "albumId" := id ]}.
Proof.
  unfold match_path.
  change (segments "/album/:albumId") with [""; "album"; ":albumId"].
  intros (id & Hpieces & Hne & ->)%match_album_inv.
  exists id. split; [done|].
  pose proof (segments_pieces_no_slash path) as Hslash.
  rewrite Hpieces in Hslash.
  apply Forall_cons in Hslash as [_ Hslash].
  apply Forall_cons in Hslash as [_ Hslash].
  apply Forall_cons in Hslash as [Hid _].
  split; [done|]. split; [|done].
  by rewrite <- (segments_join path), Hpieces.
Qed.

Lemma match_album_slash_path (path : string) (params : gmap string string) :
  match_path "/album/:albumId/" path = Some params →
  ∃ id, id ≠ "" ∧ contains_char "/" id = false ∧
        path = "/album/" +:+ id +:+ "/" ∧ params = {[ "albumId" := id ]}.
Proof.
  unfold match_path.
  change (segments "/album/:albumId/") with [""; "album"; ":albumId"; ""].
  intros (id & Hpieces & Hne & ->)%match_album_slash_inv.
  exists id. split; [done|].
  pose proof (segments_pieces_no_slash path) as Hslash.
  rewrite Hpieces in Hslash.
  apply Forall_cons in Hslash as [_ Hslash].
  apply Forall_cons in Hslash as [_ Hslash].
  apply Forall_cons in Hslash as [Hid _].
  split; [done|]. split; [|done].
  by rewrite <- (segments_join path), Hpieces.
Qed.

Lemma match_album_slash (id : string) :
  id ≠ "" → contains_char "/" id = false →
  match_path "/album/:albumId" ("/album/" +:+ id +:+ "/") = None ∧
  match_path "/album/:albumId/" ("/album/" +:+ id +:+ "/") =
    Some {[ "albumId" := id ]}.
Proof.
  intros Hne Hslash. unfold match_path.
  rewrite (proj2 (segments_album id Hslash)).
  cbn. rewrite (bool_decide_eq_false_2 _ Hne), !bool_decide_eq_true_2 by done.
  split; [done|].
  by rewrite !(left_id_L ∅ (∪)), !(right_id_L ∅ (∪)).
Qed.

(** ** The route table *)

Lemma routes_unfolded :
  routes app_routes =
    [("/album/:albumId", album_route);
     ("/album/:albumId/", redirect_route "/album/:albumId");
     ("/toprated", toprated_route);
     ("/toprated/", redirect_route "/toprated");
     ("/root", root_route);
     ("/root/", redirect_route "/root");
     ("/scope", scope_route);
     ("/scope/", redirect_route "/scope")].
Proof. reflexivity. Qed.

Lemma follow_served (fuel : nat) (p : RouteProvider) (path : string)
    (route : Route) (params : gmap string string) :
  parse_route p path = Some (route, params) → redirectTo route = None →
  follow_redirects fuel p path = Some (route, params).
Proof. intros Hp Hr. destruct fuel; cbn [follow_redirects]; by rewrite Hp, Hr. Qed.

Lemma follow_redirected (fuel : nat) (p : RouteProvider) (path target : string)
    (route : Route) (params : gmap string string) :
  parse_route p path = Some (route, params) → redirectTo route = Some target →
  follow_redirects (S fuel) p path =
    follow_redirects fuel p (interpolate target params).
Proof. intros Hp Hr. cbn [follow_redirects]. by rewrite Hp, Hr. Qed.

Lemma parse_album (id : string) :
  id ≠ "" → contains_char "/" id = false →
  parse_route app_routes ("/album/" +:+ id) =
    Some (album_route, {[ "albumId" := id ]}) ∧
  parse_route app_routes ("/album/" +:+ id +:+ "/") =
    Some (redirect_route "/album/:albumId", {[ "albumId" := id ]}).
Proof.
  intros Hne Hslash. unfold parse_route. rewrite routes_unfolded.
  cbn [find_route].
  destruct (match_album_slash id Hne Hslash) as [Hno Hyes].
  by rewrite (match_album id Hne Hslash), Hno, Hyes.
Qed.

Lemma route_for_album (id : string) :
  id ≠ "" → contains_char "/" id = false →
  route_for app_routes ("/album/" +:+ id) =
    Some (album_route, {[ "albumId" := id ]}) ∧
  route_for app_routes ("/album/" +:+ id +:+ "/") =
    Some (album_route, {[ "albumId" := id ]}).
Proof.
  intros Hne Hslash. destruct (parse_album id Hne Hslash) as [Hserve Hredir].
  unfold route_for. rewrite routes_unfolded. cbn [length].
  split; [by apply follow_served|].
  rewrite (follow_redirected _ _ _ "/album/:albumId" _ _ Hredir); [|done].
  assert (interpolate "/album/:albumId" {[ "albumId" := id ]} = "/album/" +:+ id)
    as ->.
  { unfold interpolate.
    change (segments "/album/:albumId") with [""; "album"; ":albumId"].
    cbn. by rewrite lookup_singleton_eq. }
  by apply follow_served.
Qed.

(** What the router does with a path, case by case. *)
Lemma route_for_cases (path : string) :
  (∃ id, id ≠ "" ∧ contains_char "/" id = false ∧
         (path = "/album/" +:+ id ∨ path = "/album/" +:+ id +:+ "/") ∧
         route_for app_routes path = Some (album_route, {[ "albumId" := id ]})) ∨
  ((path = "/toprated" ∨ path = "/toprated/") ∧
   route_for app_routes path = Some (toprated_route, ∅)) ∨
  ((path = "/root" ∨ path = "/root/") ∧
   route_for app_routes path = Some (root_route, ∅)) ∨
  ((path = "/scope" ∨ path = "/scope/") ∧
   route_for app_routes path = Some (scope_route, ∅)) ∨
  (Forall (λ r, match_path r.1 path = None) (routes app_routes) ∧
   route_for app_routes path = Some (albums_route, ∅)).
Proof.
  destruct (match_path "/album/:albumId" path) as [m|] eqn:H1.
  { apply match_album_path in H1 as (id & Hne & Hslash & -> & _).
    left. exists id. do 3 (split; [by auto|]).
    apply (route_for_album id Hne Hslash). }
  destruct (match_path "/album/:albumId/" path) as [m|] eqn:H2.
  { apply match_album_slash_path in H2 as (id & Hne & Hslash & -> & _).
    left. exists id. do 3 (split; [by auto|]).
    apply (route_for_album id Hne Hslash). }
  destruct (match_path "/toprated" path) as [m|] eqn:H3.
  { apply match_literal_path in H3 as [-> _]; [|by repeat constructor].
    right. left. split; [by left|]. by vm_compute. }
  destruct (match_path "/toprated/" path) as [m|] eqn:H4.
  { apply match_literal_path in H4 as [-> _]; [|by repeat constructor].
    right. left. split; [by right|]. by vm_compute. }
  destruct (match_path "/root" path) as [m|] eqn:H5.
  { apply match_literal_path in H5 as [-> _]; [|by repeat constructor].
    do 2 right. left. split; [by left|]. by vm_compute. }
  destruct (match_path "/root/" path) as [m|] eqn:H6.
  { apply match_literal_path in H6 as [-> _]; [|by repeat constructor].
    do 2 right. left. split; [by right|]. by vm_compute. }
  destruct (match_path "/scope" path) as [m|] eqn:H7.
  { apply match_literal_path in H7 as [-> _]; [|by repeat constructor].
    do 3 right. left. split; [by left|]. by vm_compute. }
  destruct (match_path "/scope/" path) as [m|] eqn:H8.
  { apply match_literal_path in H8 as [-> _]; [|by repeat constructor].
    do 3 right. left. split; [by right|]. by vm_compute. }
  do 4 right.
  assert (Forall (λ r, match_path r.1 path = None) (routes app_routes)) as Hnone.
  { rewrite routes_unfolded. by repeat constructor. }
  split; [done|]. unfold route_for. apply follow_served; [|done].
  unfold parse_route. by rewrite (find_route_None _ _ Hnone).
Qed.

(** The claim that every path other than the four registered ones is sent to
    the fallback fails: [/toprated/] is none of the four and matches none of
    their patterns, yet the router serves the top-rated view for it, through
    the redirection [when] registers. *)
Lemma trailing_slash_path_is_served :
  ("/toprated/" ∉ ["/album/:albumId"; "/toprated"; "/root"; "/scope"]) ∧
  Forall (λ pattern, match_path pattern "/toprated/" = None)
         ["/album/:albumId"; "/toprated"; "/root"; "/scope"] ∧
  route_for app_routes "/toprated/" = Some (toprated_route, ∅) ∧
  route_for app_routes "/toprated/" ≠ Some (albums_route, ∅).
Proof.
  split.
  { rewrite !not_elem_of_cons. repeat split; try discriminate.
    apply not_elem_of_nil. }
  split; [by repeat constructor|].
  assert (route_for app_routes "/toprated/" = Some (toprated_route, ∅)) as ->
    by (by vm_compute).
  split; [done|]. discriminate.
Qed.

(** C4, amended: the [config] block registers the four paths
    [/album/:albumId], [/toprated], [/root] and [/scope] with the templates
    and controllers below and [albums.html] with [AlbumsController] as the
    fallback, and the router adds for each of the four the redirection from
    the same path followed by a slash.  So the router serves each of these
    eight paths with the route registered for it, and sends every other path
    to the fallback. *)
Theorem route_table_with_redirects :
  routes app_routes =
    [("/album/:albumId",
      mkRoute (Some "app/album/album.html") None (Some "AlbumController")
              [("album", resolve_album)] None);
     ("/album/:albumId/", mkRoute None None None [] (Some "/album/:albumId"));
     ("/toprated",
      mkRoute (Some "app/toprated/toprated.html") None
              (Some "TopRatedController") [] None);
     ("/toprated/", mkRoute None None None [] (Some "/toprated"));
     ("/root",
      mkRoute None (Some "<div><root-test></root-test></div>") None [] None);
     ("/root/", mkRoute None None None [] (Some "/root"));
     ("/scope",
      mkRoute None (Some "<div><scope-test></scope-test></div>") None [] None);
     ("/scope/", mkRoute None None None [] (Some "/scope"))] ∧
  otherwise_route app_routes =
    Some (mkRoute (Some "app/albums/albums.html") None (Some "AlbumsController")
                  [] None) ∧
  tags (inline_template root_route) = ["div"; "root-test"] ∧
  tags (inline_template scope_route) = ["div"; "scope-test"] ∧
  (∀ id, id ≠ "" → contains_char "/" id = false →
     route_for app_routes ("/album/" +:+ id) =
       Some (album_route, {[ "albumId" := id ]}) ∧
     route_for app_routes ("/album/" +:+ id +:+ "/") =
       Some (album_route, {[ "albumId" := id ]})) ∧
  Forall (λ path, route_for app_routes path = Some (toprated_route, ∅))
         ["/toprated"; "/toprated/"] ∧
  Forall (λ path, route_for app_routes path = Some (root_route, ∅))
         ["/root"; "/root/"] ∧
  Forall (λ path, route_for app_routes path = Some (scope_route, ∅))
         ["/scope"; "/scope/"] ∧
  (∀ path,
     path ∉ ["/toprated"; "/toprated/"; "/root"; "/root/"; "/scope"; "/scope/"] →
     (∀ id, id ≠ "" → contains_char "/" id = false →
        path ≠ "/album/" +:+ id ∧ path ≠ "/album/" +:+ id +:+ "/") →
     route_for app_routes path = Some (albums_route, ∅)).
Proof.
  split; [reflexivity|]. split; [reflexivity|].
  split; [reflexivity|]. split; [reflexivity|].
  split; [apply route_for_album|].
  split; [by repeat constructor; vm_compute|].
  split; [by repeat constructor; vm_compute|].
  split; [by repeat constructor; vm_compute|].
  intros path Hlit Halbum. rewrite !not_elem_of_cons in Hlit.
  destruct Hlit as (? & ? & ? & ? & ? & ? & _).
  destruct (route_for_cases path)
    as [(id & Hne & Hslash & Hpath & _)|[[[?|?] _]|[[[?|?] _]|[[[?|?] _]|[_ ?]]]]];
    try done.
  destruct (Halbum id Hne Hslash). by destruct Hpath.
Qed.

Lemma route_table_with_redirects_witness :
  (route_for app_routes ("/album/" +:+ "42") =
     Some (album_route, {[ "albumId" := "42" ]}) ∧
   route_for app_routes ("/album/" +:+ "42" +:+ "/") =
     Some (album_route, {[ "albumId" := "42" ]})) ∧
  route_for app_routes "/nowhere" = Some (albums_route, ∅).
Proof.
  destruct route_table_with_redirects
    as (_ & _ & _ & _ & Halbum & _ & _ & _ & Hother).
  split.
  - apply (Halbum "42"); [discriminate|reflexivity].
  - apply (Hother "/nowhere").
    + rewrite !not_elem_of_cons. repeat split; try discriminate.
      apply not_elem_of_nil.
    + intros id _ _. split; discriminate.
Defined.

(** ** Resolving the album *)

Lemma resolve_album_run (env : Env) (log : list Call) :
  resolve_album env log =
  (Returned
     (promise_then
        (http_backend env
           (concat "api/album/" (param (route_current_params env) "albumId")))
        data None),
   log ++ [console_log_stringify (route_current_params env);
           http_get_call
             (concat "api/album/" (param (route_current_params env) "albumId"))]).
Proof.
  unfold resolve_album, bind, route_params, console_log_JSON_stringify,
    http_get, ret.
  by rewrite <- app_assoc.
Qed.

(** C5: resolving [album] sends one request, a GET to ['api/album/'] followed
    by the [albumId] of the current route, and the resolved value is the
    [data] field of the response. *)
Theorem album_is_resolved_with_one_GET
    (env : Env) (log : list Call) (albumId : string) :
  route_current_params env !! "albumId" = Some albumId →
  let url := "api/album/" +:+ albumId in
  resolve album_route = [("album", resolve_album)] ∧
  resolve_album env log =
    (Returned (promise_then (http_backend env url) data None),
     log ++ [console_log_stringify (route_current_params env);
             http_get_call url]) ∧
  (∀ response, http_backend env url = Fulfilled response →
     (resolve_album env log).1 = Returned (Fulfilled (data response))).
Proof.
  intros Hid url. split; [reflexivity|].
  rewrite resolve_album_run. unfold param. rewrite Hid.
  change (concat "api/album/" (Str albumId)) with url.
  split; [reflexivity|]. intros response Hresp. cbn [fst]. by rewrite Hresp.
Qed.

Lemma album_is_resolved_with_one_GET_witness :
  let env := mkEnv "/album/42" {[ "albumId" := "42" ]}
                   (λ _, Fulfilled (mkResponse (Str "Abbey Road") 200))
                   (λ _, Returned Undefined) in
  resolve_album env [] =
    (Returned (Fulfilled (Str "Abbey Road")),
     [console_log_stringify {[ "albumId" := "42" ]};
      http_get_call "api/album/42"]).
Proof.
  intros env.
  apply (proj1 (proj2 (album_is_resolved_with_one_GET env [] "42"
                         (lookup_singleton_eq _ _)))).
Defined.

End App_facts.

(** * Errors *)

Section Error_facts.
Import JS App.

Lemma failing_link_run (f : RootDirectiveFailing.Failures) (w : RootDirective.World)
    (scope element : positive) (attr : gmap string Value) :
  RootDirectiveFailing.link scope element attr f w =
  match RootDirectiveFailing.on_fails f "someEvent" with
  | Some e =>
      (Thrown e,
       RootDirective.exec
         (RootDirective.set_prop scope "val"
            (Str (Array_join (new_Array 999999) "x"))) w)
  | None =>
      (Returned tt,
       RootDirective.exec (RootDirective.link scope element attr) w)
  end.
Proof.
  unfold RootDirectiveFailing.link, RootDirectiveFailing.bind,
    RootDirectiveFailing.rootScope_on, RootDirectiveFailing.lift,
    RootDirectiveFailing.ret.
  cbn [RootDirective.set_prop].
  by destruct (RootDirectiveFailing.on_fails f "someEvent").
Qed.

Lemma failing_call_run (f : RootDirectiveFailing.Failures) (w : RootDirective.World)
    (c : RootDirective.Closure) :
  RootDirectiveFailing.call c f w =
  match c with
  | RootDirective.someEvent_listener _ element =>
      match RootDirectiveFailing.tooltip_fails f element with
      | Some e => (Thrown e, w)
      | None =>
          (Returned (RootDirective.call c w).1,
           RootDirective.exec (RootDirective.call c) w)
      end
  | _ =>
      (Returned (RootDirective.call c w).1,
       RootDirective.exec (RootDirective.call c) w)
  end.
Proof.
  destruct c as [scope element|scope|cleanUp]; [|done|done].
  unfold RootDirectiveFailing.call, RootDirectiveFailing.bind,
    RootDirectiveFailing.element_tooltip, RootDirectiveFailing.lift,
    RootDirectiveFailing.ret.
  by destruct (RootDirectiveFailing.tooltip_fails f element).
Qed.

(** C8: no operation of the two files handles an error.  In [app.js] a
    rejected request leaves [resolve.album] with a promise rejected with the
    very same reason, after one request and no second one; a scenario trigger
    throws what its service method throws, after that one call; [isActive]
    has nothing that can fail.  In [root.directive.js] the listener throws
    what [element.tooltip] throws and has done nothing by then, [link] throws
    what [$rootScope.$on] throws, and where no service fails both do exactly
    what they do in the model without failures. *)
Theorem errors_pass_through_unhandled :
  (∀ env log reason,
     let url := concat "api/album/" (param (route_current_params env) "albumId") in
     http_backend env url = Rejected reason →
     resolve_album env log =
       (Returned (Rejected reason),
        log ++ [console_log_stringify (route_current_params env);
                http_get_call url])) ∧
  Forall (λ trigger : ScopeFunction * string,
            ∀ env log e args,
              ScenariosService_behaviour env trigger.2 = Thrown e →
              trigger.1 args env log =
                (Thrown e, log ++ [ScenariosService_call trigger.2 []]))
         [(scenario1, "scenario1"); (scenario2, "scenario2");
          (scenario3, "scenario3"); (scenario4, "scenario4")] ∧
  (∀ args env log, ∃ b : bool,
     isActive args env log = (Returned (Boolean b), log)) ∧
  (∀ f w scope element e,
     RootDirectiveFailing.tooltip_fails f element = Some e →
     RootDirectiveFailing.call
       (RootDirective.someEvent_listener scope element) f w =
       (Thrown e, w)) ∧
  (∀ f w scope element attr e,
     RootDirectiveFailing.on_fails f "someEvent" = Some e →
     RootDirectiveFailing.link scope element attr f w =
       (Thrown e,
        RootDirective.exec
          (RootDirective.set_prop scope "val"
             (Str (Array_join (new_Array 999999) "x"))) w)) ∧
  (∀ f w scope element attr,
     RootDirectiveFailing.on_fails f "someEvent" = None →
     RootDirectiveFailing.link scope element attr f w =
       (Returned tt,
        RootDirective.exec (RootDirective.link scope element attr) w)) ∧
  (∀ f w c,
     (∀ element, RootDirectiveFailing.tooltip_fails f element = None) →
     RootDirectiveFailing.call c f w =
       (Returned (RootDirective.call c w).1,
        RootDirective.exec (RootDirective.call c) w)).
Proof.
  split.
  { intros env log reason url Hrej. rewrite resolve_album_run. fold url.
    by rewrite Hrej. }
  split.
  { repeat apply Forall_cons_2; [| | | |apply Forall_nil_2];
      intros env log e args He; cbn [fst snd] in *.
    - by rewrite scenario1_forwards, He.
    - by rewrite scenario2_forwards, He.
    - by rewrite scenario3_forwards, He.
    - by rewrite scenario4_forwards, He. }
  split.
  { intros args env log. eexists. reflexivity. }
  split.
  { intros f w scope element e He. by rewrite failing_call_run, He. }
  split.
  { intros f w scope element attr e He. by rewrite failing_link_run, He. }
  split.
  { intros f w scope element attr He. by rewrite failing_link_run, He. }
  intros f w c Hnone. rewrite failing_call_run.
  destruct c as [scope element| |]; [|done|done]. by rewrite Hnone.
Qed.

Lemma errors_pass_through_unhandled_witness :
  let env := mkEnv "/album/42" {[ "albumId" := "42" ]}
                   (λ _, Rejected (Str "404"))
                   (λ _, Thrown (Str "boom")) in
  let f := RootDirectiveFailing.mkFailures
             (λ _, Some (Str "no listeners"))
             (λ _, Some (Str "no tooltip")) in
  resolve_album env [] =
    (Returned (Rejected (Str "404")),
     [] ++ [console_log_stringify {[ "albumId" := "42" ]};
            http_get_call "api/album/42"]) ∧
  scenario1 [] env [] =
    (Thrown (Str "boom"), [] ++ [ScenariosService_call "scenario1" []]) ∧
  RootDirectiveFailing.call
    (RootDirective.someEvent_listener 1%positive 2%positive) f
    RootDirective.initial =
    (Thrown (Str "no tooltip"), RootDirective.initial) ∧
  RootDirectiveFailing.link 1%positive 2%positive ∅ f RootDirective.initial =
    (Thrown (Str "no listeners"),
     RootDirective.exec
       (RootDirective.set_prop 1%positive "val"
          (Str (Array_join (new_Array 999999) "x")))
       RootDirective.initial).
Proof.
  intros env f.
  destruct errors_pass_through_unhandled
    as (Hres & Htrig & _ & Hcall & Hlink & _ & _).
  split; [exact (Hres env [] (Str "404") eq_refl)|].
  split; [exact (Forall_inv Htrig env [] (Str "boom") [] eq_refl)|].
  split.
  { exact (Hcall f RootDirective.initial 1%positive 2%positive
                 (Str "no tooltip") eq_refl). }
  exact (Hlink f RootDirective.initial 1%positive 2%positive ∅
               (Str "no listeners") eq_refl).
Defined.

End Error_facts.

(** * The scripts *)

Section Scripts_facts.
Import App Scripts.




End Scripts_facts.
(** * More about the [rootTest] directive *)

Section RootDirective_more.
Import JS RootDirective.

(** ** The closures one at a time *)





(** ** Reachable worlds *)

Lemma listeners_for_Inv (views : list (loc * loc)) (w : World) (name : string) :
  Inv views w →
  listeners_for name w =
    if decide (name = "someEvent") then live_listeners w else [].
Proof.
  intros HI. rewrite (live_listeners_Inv _ _ HI).
  unfold listeners_for. rewrite (inv_listeners _ _ HI).
  induction views as [|v views IH] in |- *; [by case_decide|].
  cbn [fmap list_fmap omap list_omap listener_entry fst snd].
  fold (@fmap list _ _ _ listener_entry views).
  fold (omap (λ entry : string * option Closure,
                if decide (entry.1 = name) then entry.2 else None)
             (listener_entry <$> views)).
  rewrite IH. repeat case_decide; by subst.
Qed.

(** X2: the function given as [title] to the tooltip always returns
    ["Rating is undefined"] followed by the 999998 characters of [scope.val],
    1000017 characters in all, since nothing ever sets [scope.title]; calling
    it changes nothing. *)
Theorem title_reads_undefined_rating
    (tr : list Action) (e : loc) (c : Closure) :
  let w := run rootTest tr initial in
  c ∈ tooltip_titles (get_element e w) →
  ∃ text : string,
    call c w = (Str text, w) ∧
    text = "Rating is undefined" +:+ Array_join (new_Array 999999) "x" ∧
    String.length text = 19 + N.to_nat 999998.
Proof.
  intros w Hc. destruct (Inv_reachable tr) as (views & HI & _). fold w in HI.
  unfold get_element in Hc.
  destruct (dom_elements w !! e) as [el|] eqn:E;
    cbn [default from_option id] in Hc; [|by apply elem_of_nil in Hc].
  destruct (inv_elements _ _ HI e el E) as [_ Ht].
  destruct (Ht c Hc) as (s & -> & Hs).
  assert (get_object s w = {[ "val" := Str large_string ]}) as Hobj.
  { apply (scope_val_Inv views); [done|]. apply list_elem_of_fmap. by exists (s, e). }
  exists ("Rating is undefined" +:+ large_string).
  rewrite new_Array_join_x. split; [|split; [done|]].
  - unfold call, bind, get_prop, ret. rewrite Hobj.
    by rewrite lookup_singleton_ne, lookup_singleton_eq.
  - by rewrite length_append, large_string_length.
Qed.

Lemma title_reads_undefined_rating_witness :
  ∃ text : string,
    call (title_fn 1%positive)
         (run rootTest [Compile; Broadcast "someEvent"] initial) =
      (Str text, run rootTest [Compile; Broadcast "someEvent"] initial) ∧
    text = "Rating is undefined" +:+ Array_join (new_Array 999999) "x" ∧
    String.length text = 19 + N.to_nat 999998.
Proof.
  apply (title_reads_undefined_rating [Compile; Broadcast "someEvent"]
           2%positive (title_fn 1%positive)).
  with_strategy transparent [gmap_empty] lazy. left.
Defined.

(** X3: only ['someEvent'] reaches the directive: broadcasting any other
    event leaves the whole world as it was. *)
Theorem other_events_do_nothing (tr : list Action) (name : string) :
  name ≠ "someEvent" →
  exec (rootScope_broadcast name) (run rootTest tr initial) =
    run rootTest tr initial.
Proof.
  intros Hname. destruct (Inv_reachable tr) as (views & HI & _).
  unfold rootScope_broadcast, exec.
  rewrite (listeners_for_Inv _ _ name HI). by case_decide.
Qed.

Lemma other_events_do_nothing_witness :
  exec (rootScope_broadcast "otherEvent") (run rootTest [Compile] initial) =
    run rootTest [Compile] initial.
Proof. apply (other_events_do_nothing [Compile] "otherEvent"). discriminate. Defined.

(** X4: leaving the view frees nothing: the scope is detached from
    [$rootScope], but the listener table, the scope objects, the set of
    retained scopes and the retained characters are what they were. *)
Theorem destroy_frees_nothing (tr : list Action) (scope element : loc) :
  let w := run rootTest tr initial in
  let w' := exec (destroy scope element) w in
  children w' = children w ∖ {[scope]} ∧
  listeners w' = listeners w ∧
  scopes w' = scopes w ∧
  dom_elements w' = dom_elements w ∧
  retained_scopes w' = retained_scopes w ∧
  retained_chars w' = retained_chars w.
Proof.
  intros w w'. destruct (Inv_reachable tr) as (views & HI & _). fold w in HI.
  pose proof (Inv_destroy _ _ scope element HI) as HI'. fold w' in HI'.
  rewrite (retained_scopes_Inv _ _ HI), (retained_scopes_Inv _ _ HI').
  rewrite (retained_chars_Inv _ _ HI), (retained_chars_Inv _ _ HI').
  subst w'. by rewrite (destroy_exec _ _ _ _ HI).
Qed.

(** ** The listener of a view that is gone *)

Lemma call_all_titles (e : loc) (cs : list Closure) :
  Forall (λ c, ∃ s e', c = someEvent_listener s e') cs →
  ∀ w, tooltip_titles (get_element e (exec (call_all cs) w)) =
       tooltip_titles (get_element e w) ++ titles_for e cs.
Proof.
  induction 1 as [|c cs (s & e' & ->) _ IH]; intros w.
  - by rewrite app_nil_r.
  - cbn [call_all]. rewrite exec_seq, IH, listener_exec.
    unfold get_element at 1. cbn [dom_elements titles_for omap list_omap].
    fold (titles_for e cs).
    destruct (decide (e' = e)) as [->|Hne].
    + rewrite lookup_insert_eq. cbn [default from_option id tooltip_titles].
      by rewrite <- app_assoc.
    + by rewrite lookup_insert_ne.
Qed.

(** X5: a view that has been left still reacts: after its scope is destroyed,
    the next ['someEvent'] calls its listener all the same, and its element
    is handed one more title closure over its scope. *)
Theorem destroyed_view_still_reacts (tr : list Action) (scope element : loc) :
  let w := run rootTest tr initial in
  someEvent_listener scope element ∈ live_listeners w →
  let gone := exec (destroy scope element) w in
  let fired := exec (rootScope_broadcast "someEvent") gone in
  (scope ∉ children gone) ∧
  (scope ∈ retained_scopes fired) ∧
  ∃ added,
    tooltip_titles (get_element element fired) =
      tooltip_titles (get_element element w) ++ added ∧
    title_fn scope ∈ added.
Proof.
  intros w Hin gone fired.
  destruct (Inv_reachable tr) as (views & HI & _). fold w in HI.
  pose proof (Inv_destroy _ _ scope element HI) as HI'. fold gone in HI'.
  pose proof (Inv_broadcast _ _ "someEvent" HI') as HI''. fold fired in HI''.
  assert (live_listeners gone = live_listeners w) as Hlive.
  { by rewrite (live_listeners_Inv _ _ HI), (live_listeners_Inv _ _ HI'). }
  split; [|split].
  - subst gone. rewrite (destroy_exec _ _ _ _ HI).
    cbn [exec snd scope_destroy children].
    rewrite elem_of_difference, elem_of_singleton. by intros [_ ?].
  - apply (listener_retains_scope _ scope element).
    by rewrite (live_listeners_Inv _ _ HI''), <- (live_listeners_Inv _ _ HI).
  - exists (titles_for element (live_listeners w)). split.
    + subst fired. unfold rootScope_broadcast, exec at 1.
      rewrite (listeners_for_Inv _ _ _ HI'). case_decide; [|done].
      fold (exec (call_all (live_listeners gone)) gone).
      rewrite call_all_titles, Hlive.
      * subst gone. by rewrite (destroy_exec _ _ _ _ HI).
      * rewrite Hlive, (live_listeners_Inv _ _ HI).
        apply Forall_fmap, Forall_true. intros v. by eexists _, _.
    + apply list_elem_of_omap. exists (someEvent_listener scope element).
      split; [done|]. by case_decide.
Qed.

Lemma destroyed_view_still_reacts_witness :
  let w := run rootTest [Compile] initial in
  let gone := exec (destroy 1%positive 2%positive) w in
  let fired := exec (rootScope_broadcast "someEvent") gone in
  (1%positive ∉ children gone) ∧
  (1%positive ∈ retained_scopes fired) ∧
  ∃ added,
    tooltip_titles (get_element 2%positive fired) =
      tooltip_titles (get_element 2%positive w) ++ added ∧
    title_fn 1%positive ∈ added.
Proof.
  apply (destroyed_view_still_reacts [Compile] 1%positive 2%positive).
  lazy. left.
Defined.

(** ** The directive with its clean-up handler *)

Lemma compile_with_cleanup_exec (w : World) :
  exec (compile rootTest_with_cleanup) w =
  mkWorld (<[next w := {[ "val" := Str large_string ]}]> (scopes w))
          (<[Pos.succ (next w) :=
               mkElement []
                 [("$destroy",
                   destroy_handler
                     (mkDeregistration "someEvent" (length (listeners w))))]]>
             (dom_elements w))
          (listeners w ++ [listener_entry (next w, Pos.succ (next w))])
          ({[next w]} ∪ children w) (released w)
          (Pos.succ (Pos.succ (next w))).
Proof.
  change (exec (compile rootTest_with_cleanup) w) with
    (exec (link_with_cleanup (next w) (Pos.succ (next w)) ∅)
          (exec new_dom_element (exec new_scope w))).
  rewrite <- new_Array_join_x.
  unfold link_with_cleanup, exec, bind, set_prop, rootScope_on, element_on,
    new_dom_element, new_scope, get_object, get_element.
  cbn [snd scopes dom_elements listeners children released next].
  rewrite !lookup_insert_eq. cbn [default from_option id].
  by rewrite !insert_insert_eq, insert_empty.
Qed.

Lemma exec_ret {A} (a : A) (w : World) : exec (ret a) w = w.
Proof. reflexivity. Qed.

Lemma scenario_with_cleanup_exec (w : World) :
  exec (scenario rootTest_with_cleanup) w =
  mkWorld (<[next w := {[ "val" := Str large_string ]}]> (scopes w))
          (<[Pos.succ (next w) :=
               mkElement []
                 [("$destroy",
                   destroy_handler
                     (mkDeregistration "someEvent" (length (listeners w))))]]>
             (dom_elements w))
          (listeners w ++ [("someEvent", None)])
          (({[next w]} ∪ children w) ∖ {[next w]})
          (released w ++ [mkDeregistration "someEvent" (length (listeners w))])
          (Pos.succ (Pos.succ (next w))).
Proof.
  rewrite scenario_run. cbn [run foldl step].
  rewrite exec_seq, compile_with_cleanup_exec, exec_ret.
  unfold destroy. rewrite exec_seq.
  unfold element_trigger, exec at 1 2, scope_destroy, handlers_for, get_element.
  cbn [snd scopes dom_elements listeners children released next].
  rewrite lookup_insert_eq.
  cbn [default from_option id on_handlers omap list_omap fst snd].
  rewrite decide_True by done.
  cbn [call_all call]. unfold exec, bind, deregister, ret.
  cbn [snd scopes dom_elements listeners children released next
       dereg_index dereg_event].
  by rewrite insert_app_r_alt, Nat.sub_diag by done.
Qed.

(** X6: with the handler of lines 17-20 in place of the comment, the scenario
    leaks nothing: after any number of runs every listener has been released,
    one release per run, and no scope is retained. *)
Theorem cleanup_handler_stops_the_leak (n : nat) :
  let w := exec (scenarios rootTest_with_cleanup n) initial in
  live_listeners w = [] ∧
  length (released w) = n ∧
  children w = ∅ ∧
  retained_scopes w = ∅ ∧
  retained_chars w = 0.
Proof.
  intros w.
  assert (listeners w = replicate n ("someEvent", None) ∧
          length (released w) = n ∧ children w = ∅) as (Hl & Hr & Hc).
  { subst w. induction n as [|n (Hl & Hr & Hc)]; [done|].
    cbn [scenarios]. rewrite exec_seq, scenario_with_cleanup_exec.
    cbn [listeners released children]. rewrite Hl, Hc, length_app, Hr.
    split; [|split; [cbn; lia|]].
    2: { by rewrite (right_id_L ∅ (∪)), difference_diag_L. }
    clear. induction n as [|n IH]; [done|]. cbn. by rewrite IH. }
  assert (live_listeners w = []) as Hlive.
  { unfold live_listeners. rewrite Hl. clear.
    induction n as [|n IH]; [done|]. by cbn. }
  assert (retained_scopes w = ∅) as Hret.
  { unfold retained_scopes, reachable_closures. rewrite Hlive, Hc.
    by rewrite (left_id_L ∅ (∪)). }
  unfold retained_chars. rewrite Hret, elements_empty. done.
Qed.

(** ** Any session *)

(** X15: whatever is done in a session, the retained characters are 999998
    times the number of times the directive was instantiated: firing events
    and leaving views change nothing, and going on with the session never
    brings the number down. *)
Theorem retained_memory_counts_compilations (tr more : list Action) :
  retained_chars (run rootTest tr initial) =
    compilations tr * N.to_nat 999998 ∧
  (retained_chars (run rootTest tr initial) ≤
     retained_chars (run rootTest (tr ++ more) initial))%nat.
Proof.
  destruct (Inv_reachable tr) as (views & HI & Hlen).
  destruct (Inv_reachable (tr ++ more)) as (views' & HI' & Hlen').
  rewrite (retained_chars_Inv _ _ HI), (retained_chars_Inv _ _ HI').
  rewrite Hlen, Hlen', compilations_app. split; [done|]. nia.
Qed.

End RootDirective_more.


(** * More about the controller and the routes *)

Section App_more.
Import JS App.

(** ** The router *)

(** X7: of all paths only those of an album have something to resolve: when
    the route the router ends up serving has a [resolve] entry, the path is
    ["/album/"] followed by a non-empty [id] without a slash, with or without
    a slash after it, the route is the album route and [albumId] is bound to
    that [id]. *)
Theorem only_album_paths_resolve
    (path : string) (route : Route) (params : gmap string string) :
  route_for app_routes path = Some (route, params) →
  resolve route ≠ [] →
  ∃ id, id ≠ "" ∧ contains_char "/" id = false ∧
        (path = "/album/" +:+ id ∨ path = "/album/" +:+ id +:+ "/") ∧
        route = album_route ∧
        params = {[ "albumId" := id ]}.
Proof.
  intros Hfor Hres.
  destruct (route_for_cases path)
    as [(id & Hne & Hslash & Hpath & Hr)|[[_ Hr]|[[_ Hr]|[[_ Hr]|[_ Hr]]]]];
    rewrite Hr in Hfor; injection Hfor as <- <-; try done.
  by exists id.
Qed.

Lemma only_album_paths_resolve_witness :
  ∃ id, id ≠ "" ∧ contains_char "/" id = false ∧
        ("/album/42/" = "/album/" +:+ id ∨
         "/album/42/" = "/album/" +:+ id +:+ "/") ∧
        album_route = album_route ∧
        ({[ "albumId" := "42" ]} : gmap string string) = {[ "albumId" := id ]}.
Proof.
  apply (only_album_paths_resolve "/album/42/" album_route
           {[ "albumId" := "42" ]}).
  - by vm_compute.
  - discriminate.
Defined.

(** X8: no path is claimed by two routes, so the order of the [when] calls
    does not matter. *)
Theorem routes_do_not_overlap
    (path : string) (i j : nat) (ri rj : string * Route) :
  routes app_routes !! i = Some ri →
  routes app_routes !! j = Some rj →
  is_Some (match_path ri.1 path) →
  is_Some (match_path rj.1 path) →
  i = j.
Proof.
  rewrite routes_unfolded. unfold match_path. intros Hi Hj [pi Hpi] [pj Hpj].
  destruct i as [|[|[|[|[|[|[|[|i]]]]]]]]; cbn in Hi; simplify_eq;
    destruct j as [|[|[|[|[|[|[|[|j]]]]]]]]; cbn in Hj; simplify_eq; try done;
    cbn [fst] in Hpi, Hpj;
    repeat match goal with
    | H : match_segments (segments ?pattern) _ = Some _ |- _ =>
        let pieces := eval vm_compute in (segments pattern) in
        change (segments pattern) with pieces in H;
        first [ apply match_album_inv in H as (? & ? & _ & _)
              | apply match_album_slash_inv in H as (? & ? & _ & _)
              | apply match_literals_inv in H as [? _];
                [|by repeat constructor] ]
    end; congruence.
Qed.

Lemma routes_do_not_overlap_witness : 4 = 4.
Proof.
  apply (routes_do_not_overlap "/root" 4 4 ("/root", root_route)
           ("/root", root_route));
    try reflexivity; eexists; by vm_compute.
Defined.

(** ** Resolving the album *)

(** X9: entering [/album/<id>] requests that album: the router binds
    [albumId] to [id], and the resolver of the route it picks, run with those
    parameters, sends its one GET to ['api/album/'] followed by [id]. *)
Theorem album_path_requests_its_album
    (id : string) (env : Env) (log : list Call) :
  id ≠ "" → contains_char "/" id = false →
  ∃ route params resolver,
    route_for app_routes ("/album/" +:+ id) = Some (route, params) ∧
    resolve route = [("album", resolver)] ∧
    resolver
      (mkEnv ("/album/" +:+ id) params (http_backend env)
             (ScenariosService_behaviour env))
      log =
    (Returned (promise_then (http_backend env ("api/album/" +:+ id)) data None),
     log ++ [console_log_stringify params;
             http_get_call ("api/album/" +:+ id)]).
Proof.
  intros Hne Hslash.
  exists album_route, {[ "albumId" := id ]}, resolve_album.
  split; [|split; [done|]].
  - apply (route_for_album id Hne Hslash).
  - rewrite resolve_album_run. cbn [route_current_params http_backend].
    unfold param. by rewrite lookup_singleton_eq.
Qed.

Lemma album_path_requests_its_album_witness :
  ∃ route params resolver,
    route_for app_routes ("/album/" +:+ "7") = Some (route, params) ∧
    resolve route = [("album", resolver)] ∧
    resolver
      (mkEnv ("/album/" +:+ "7") params (λ _, Pending) (λ _, Returned Undefined))
      [] =
    (Returned (promise_then (@Pending Response) data None),
     [] ++ [console_log_stringify params; http_get_call ("api/album/" +:+ "7")]).
Proof.
  apply (album_path_requests_its_album "7"
           (mkEnv "" ∅ (λ _, Pending) (λ _, Returned Undefined)) []);
    [discriminate|reflexivity].
Defined.

(** X10: when the current route has no [albumId], the resolver still sends
    its request, to ['api/album/undefined']; it never throws, whatever the
    parameters and however the request settles. *)
Theorem resolve_album_without_albumId (env : Env) (log : list Call) :
  route_current_params env !! "albumId" = None →
  resolve_album env log =
    (Returned (promise_then (http_backend env "api/album/undefined") data None),
     log ++ [console_log_stringify (route_current_params env);
             http_get_call "api/album/undefined"]).
Proof.
  intros Hnone. rewrite resolve_album_run. unfold param. by rewrite Hnone.
Qed.

Lemma resolve_album_without_albumId_witness :
  resolve_album (mkEnv "/" ∅ (λ _, Rejected (Str "404")) (λ _, Returned Undefined)) [] =
    (Returned (Rejected (Str "404")),
     [console_log_stringify ∅; http_get_call "api/album/undefined"]).
Proof.
  apply (resolve_album_without_albumId
           (mkEnv "/" ∅ (λ _, Rejected (Str "404")) (λ _, Returned Undefined)) []).
  apply lookup_empty.
Defined.

(** ** [HomeController] *)

(** X11: [isActive] answers [false] for everything but the path string
    itself: for a call without argument, and for an argument that is not a
    string. *)
Theorem isActive_false_unless_path (args : list Value) (env : Env)
    (log : list Call) :
  (∀ rest, args ≠ Str (location_path env) :: rest) →
  isActive args env log = (Returned (Boolean false), log).
Proof.
  intros Hargs. unfold isActive, bind, location_path_get, ret, strict_equals.
  rewrite bool_decide_eq_false_2; [done|].
  destruct args as [|v rest]; cbn [nth]; [done|].
  intros ->. by apply (Hargs rest).
Qed.

Lemma isActive_false_unless_path_witness :
  isActive [] (mkEnv "/toprated" ∅ (λ _, Pending) (λ _, Returned Undefined)) [] =
    (Returned (Boolean false), []).
Proof.
  apply (isActive_false_unless_path []
           (mkEnv "/toprated" ∅ (λ _, Pending) (λ _, Returned Undefined)) []).
  intros rest. discriminate.
Defined.

(** X12: on a scope that already has properties the controller replaces the
    five it defines and leaves every other one alone. *)
Theorem HomeController_keeps_other_properties
    (scope : gmap string ScopeFunction) (name : string) :
  name ∉ ["isActive"; "scenario1"; "scenario2"; "scenario3"; "scenario4"] →
  HomeController scope !! name = scope !! name ∧
  HomeController scope !! "isActive" = Some isActive ∧
  HomeController scope !! "scenario1" = Some scenario1 ∧
  HomeController scope !! "scenario2" = Some scenario2 ∧
  HomeController scope !! "scenario3" = Some scenario3 ∧
  HomeController scope !! "scenario4" = Some scenario4 ∧
  dom (HomeController scope) =
    {[ "isActive"; "scenario1"; "scenario2"; "scenario3"; "scenario4" ]} ∪ dom scope.
Proof.
  intros Hname. rewrite !not_elem_of_cons in Hname.
  destruct Hname as (? & ? & ? & ? & ? & _). unfold HomeController.
  split; [by rewrite !lookup_insert_ne|].
  do 5 (split; [by repeat (rewrite lookup_insert_ne by done);
                     rewrite lookup_insert_eq|]).
  rewrite !dom_insert_L. apply set_eq. intros x.
  rewrite !elem_of_union, !elem_of_singleton. tauto.
Qed.

Lemma HomeController_keeps_other_properties_witness :
  HomeController {[ "title" := scenario1 ]} !! "title" =
    ({[ "title" := scenario1 ]} : gmap string ScopeFunction) !! "title".
Proof.
  apply (HomeController_keeps_other_properties {[ "title" := scenario1 ]} "title").
  rewrite !not_elem_of_cons. repeat split; try discriminate. apply not_elem_of_nil.
Defined.

End App_more.

(** * More about the scripts *)

Section Scripts_more.
Import App Scripts.

(** X13: the order of the scripts matters.  [root.directive.js] fails when
    the module [app] has not been defined, and otherwise adds [rootTest]
    after the directives already there, leaving the rest of the module alone;
    [app.js] always succeeds and defines [app] afresh, so directives
    registered before it are lost; no script touches another module. *)
Theorem script_order_matters (reg : gmap string NgModule) :
  (reg !! "app" = None → root_directive_js reg = None) ∧
  (∀ m, reg !! "app" = Some m →
     ∃ reg', root_directive_js reg = Some reg' ∧
             reg' !! "app" =
               Some (mkNgModule (requires m) (controllers m)
                                (directives m ++ ["rootTest"]) (config_blocks m)) ∧
             ∀ name, name ≠ "app" → reg' !! name = reg !! name) ∧
  (∃ reg', app_js reg = Some reg' ∧
           reg' !! "app" =
             Some (mkNgModule ["ngRoute"; "angularModalService"]
                              ["HomeController"] [] [App.config]) ∧
           ∀ name, name ≠ "app" → reg' !! name = reg !! name).
Proof.
  split; [|split].
  - intros Hnone. unfold root_directive_js, module_update. by rewrite Hnone.
  - intros m Hm. unfold root_directive_js, module_update. rewrite Hm.
    eexists. split; [done|]. split; [by rewrite lookup_insert_eq|].
    intros name Hname. by rewrite lookup_insert_ne.
  - unfold app_js, module_define, module_update. cbn [mbind option_bind].
    rewrite lookup_insert_eq. cbn [mbind option_bind].
    rewrite lookup_insert_eq.
    eexists. split; [done|]. split; [by rewrite lookup_insert_eq|].
    intros name Hname. by rewrite !lookup_insert_ne.
Qed.

Lemma script_order_matters_witness :
  root_directive_js ∅ = None ∧
  directives <$> ((load_sources ≫= app_js) ≫= (.!! "app")) = Some [].
Proof.
  split.
  - apply (proj1 (script_order_matters ∅)). apply lookup_empty.
  - by vm_compute.
Defined.

End Scripts_more.

